(** * wasmBild: the effect pipeline and the image source of the web UI

    A shallow embedding of [main.go] (and of its sibling revisions) and the
    properties of the effect pipeline, of the source-image loader and of
    the preview computation.

    The external collaborators (the [image] codecs of the Go standard
    library and the [bild] transform library) are an interface, the class
    [ImageLib]; every general theorem holds for all its instances.  A term
    model of the interface, [TermLib], gives concrete runs. *)

From Stdlib Require Import ZArith Lia Bool String Ascii List.
From Stdlib Require Import Floats.SpecFloat.
From stdpp Require Import base list strings pretty gmap.

Local Open Scope string_scope.
Local Open Scope Z_scope.
Local Open Scope list_scope.

(** ** Go primitives *)

Module Go.

(** [int] is 64 bits wide on GOARCH=wasm; arithmetic wraps around. *)
Definition int_min : Z := - 2 ^ 63.
Definition int_max : Z := 2 ^ 63 - 1.

Definition int_wrap (z : Z) : Z := (z + 2 ^ 63) mod 2 ^ 64 - 2 ^ 63.

Definition int_in_range (z : Z) : bool := (int_min <=? z) && (z <=? int_max).

(** [x++] on an [int]. *)
Definition int_incr (z : Z) : Z := int_wrap (z + 1).

(** [strconv.Itoa]: the decimal representation, ["-"] first for a
    negative number. *)
Definition Itoa (z : Z) : string := pretty z.

(** [strings.HasPrefix(s, prefix)]. *)
Definition HasPrefix (s prefix : string) : bool := String.prefix prefix s.

Fixpoint string_drop (n : nat) (s : string) : string :=
  match n, s with
  | O, _ => s
  | S n', String _ r => string_drop n' r
  | S _, EmptyString => EmptyString
  end.

(** [strings.TrimPrefix(s, prefix)]: [s] without the leading [prefix],
    [s] itself when it does not start with [prefix]. *)
Definition TrimPrefix (s prefix : string) : string :=
  if HasPrefix s prefix then string_drop (String.length prefix) s else s.

(** *** float64: IEEE 754 binary64, as specified by [SpecFloat] *)

Definition float64 : Type := spec_float.

Definition prec : Z := 53.
Definition emax : Z := 1024.

(** The conversion [float64(i)] of an [int]: round to nearest, ties to
    even. *)
Definition float64_of_int (i : Z) : float64 := binary_normalize prec emax i 0 false.

Definition fdiv (x y : float64) : float64 := SFdiv prec emax x y.
Definition fmul (x y : float64) : float64 := SFmul prec emax x y.
Definition fleb (x y : float64) : bool := SFleb x y.

Definition is_finite (x : float64) : bool :=
  match x with
  | S754_zero _ | S754_finite _ _ _ => true
  | S754_infinity _ | S754_nan => false
  end.

(** The integer part of a finite float, rounded toward plus infinity. *)
Definition Zceil_float (x : float64) : Z :=
  match x with
  | S754_finite s m e =>
      let v := if s then Z.neg m else Z.pos m in
      if 0 <=? e then v * 2 ^ e
      else - ((- v) / 2 ^ (- e))
  | _ => 0
  end.

(** [math.Ceil]: the least integer value greater than or equal to [x];
    [Ceil(±0) = ±0], [Ceil(±Inf) = ±Inf], [Ceil(NaN) = NaN]. *)
Definition Ceil (x : float64) : float64 :=
  match x with
  | S754_finite s _ _ => binary_normalize prec emax (Zceil_float x) 0 s
  | _ => x
  end.

(** The exact value of a finite float when it is an integer, its
    truncation toward zero otherwise. *)
Definition Ztrunc_float (x : float64) : Z :=
  match x with
  | S754_finite s m e =>
      let a := if 0 <=? e then Z.pos m * 2 ^ e else Z.pos m / 2 ^ (- e) in
      if s then - a else a
  | _ => 0
  end.

(** The conversion [int(x)] of a [float64]: the fraction is discarded;
    when the value does not fit [int] (also for an infinity or a NaN) the
    result is implementation-dependent, here [unspec x]. *)
Definition int_of_float64 (unspec : float64 -> Z) (x : float64) : Z :=
  if is_finite x && int_in_range (Ztrunc_float x) then Ztrunc_float x
  else unspec x.

End Go.

(** ** The environment: codecs, the bild library, the platform *)

(** [transform.ResampleFilter]: the resampling filters of bild. *)
Inductive ResampleFilter : Type :=
  | NearestNeighbor | Box | Linear | Gaussian | MitchellNetravali | CatmullRom | Lanczos.

(** What the program links against.  [Image] is the interface type
    [image.Image], whose values include [nil].  The bild calls are given as
    functions; what they do on a nil image, where the library panics, is
    outside the model: the properties that say a rendering completes, or how
    it panics, are stated for a loaded image ([library_returns_images]). *)
Class Env : Type := {
  Image : Type;
  nilImage : Image;
  (** [image.Decode(base64.NewDecoder(base64.StdEncoding,
      strings.NewReader(s)))]: the image, and the error if any. *)
  image_Decode : string -> Image * option string;
  (** [img.Bounds().Dx()] and [img.Bounds().Dy()]. *)
  Dx : Image -> Z;
  Dy : Image -> Z;
  transform_Resize : Image -> Z -> Z -> ResampleFilter -> Image;
  adjust_Brightness : Image -> Go.float64 -> Image;
  adjust_Contrast : Image -> Go.float64 -> Image;
  effect_EdgeDetection : Image -> Go.float64 -> Image;
  (** The implementation-dependent result of [int(x)] when [x] does not
      fit [int]. *)
  int_of_unrepresentable : Go.float64 -> Z
}.

(** The run-time panics the modelled code can raise by itself. *)
Inductive panic : Type :=
  | NilFuncCall       (* call of a nil function value *)
  | IndexOutOfRange.  (* index expression out of range *)

(** The outcome of running code that may panic. *)
Inductive run (A : Type) : Type :=
  | Done (a : A)
  | Panic (why : panic).
Arguments Done {A} a.
Arguments Panic {A} why.

Definition jpegPrefix : string := "data:image/jpeg;base64,".
Definition pngPrefix : string := "data:image/png;base64,".

(** The computation of the preview height in [NewSourceImgFromString]:
    [ratio := float64(srcHeight) / float64(srcWidth)] and
    [dstHeight := int(math.Ceil(ratio * float64(dstWidth)))]. *)
Definition ratio_of (srcWidth srcHeight : Z) : Go.float64 :=
  Go.fdiv (Go.float64_of_int srcHeight) (Go.float64_of_int srcWidth).

Definition dstHeight_of `{Env} (srcWidth srcHeight dstWidth : Z) : Z :=
  Go.int_of_float64 int_of_unrepresentable
    (Go.Ceil (Go.fmul (ratio_of srcWidth srcHeight) (Go.float64_of_int dstWidth))).

(** ** main.go *)

Module Main.

Section WithEnv.
Context `{Env}.

Definition effectFn : Type := Image -> Image.

Record Effect : Type := {
  Id : string;
  Name : string;
  Value : Go.float64;
  Min : Z;
  Max : Z
}.

Definition set_Value (eff : Effect) (value : Go.float64) : Effect :=
  {| Id := Id eff; Name := Name eff; Value := value; Min := Min eff; Max := Max eff |}.

(** [GetEffectFn]: [None] is the nil function of the default case. *)
Definition GetEffectFn (eff : Effect) : option effectFn :=
  if String.eqb (Name eff) "brightness" then
    Some (fun img => adjust_Brightness img (Value eff))
  else if String.eqb (Name eff) "contrast" then
    Some (fun img => adjust_Contrast img (Value eff))
  else None.

(** The fields of [App] the operations below read or write; [buf] is
    the scratch buffer of the JPEG encoder, empty between events. *)
Record App : Type := {
  cnt : Z;
  dstWidth : Z;
  sourceImg : Image;
  resizedImg : Image;
  effects : list Effect
}.

Definition NewApp : App :=
  {| cnt := 0; dstWidth := 200; sourceImg := nilImage; resizedImg := nilImage;
     effects := [] |}.

Definition set_cnt (app : App) (c : Z) : App :=
  {| cnt := c; dstWidth := dstWidth app; sourceImg := sourceImg app;
     resizedImg := resizedImg app; effects := effects app |}.

Definition set_sourceImg (app : App) (img : Image) : App :=
  {| cnt := cnt app; dstWidth := dstWidth app; sourceImg := img;
     resizedImg := resizedImg app; effects := effects app |}.

Definition set_resizedImg (app : App) (img : Image) : App :=
  {| cnt := cnt app; dstWidth := dstWidth app; sourceImg := sourceImg app;
     resizedImg := img; effects := effects app |}.

Definition set_effects (app : App) (effs : list Effect) : App :=
  {| cnt := cnt app; dstWidth := dstWidth app; sourceImg := sourceImg app;
     resizedImg := resizedImg app; effects := effs |}.

Definition Append (app : App) (eff : Effect) : App :=
  set_effects app (effects app ++ [eff]).

(** The loop of [Update]: the first element whose [Id] matches gets
    the value, and the loop breaks. *)
Fixpoint Update_loop (effs : list Effect) (id : string) (value : Go.float64)
  : list Effect :=
  match effs with
  | [] => []
  | v :: rest =>
      if String.eqb (Id v) id then set_Value v value :: rest
      else v :: Update_loop rest id value
  end.

Definition Update (app : App) (id : string) (value : Go.float64) : App :=
  set_effects app (Update_loop (effects app) id value).

(** The [switch] on the prefix: the payload after a recognized prefix. *)
Definition strip_prefix (simg : string) : option string :=
  if Go.HasPrefix simg jpegPrefix then Some (Go.TrimPrefix simg jpegPrefix)
  else if Go.HasPrefix simg pngPrefix then Some (Go.TrimPrefix simg pngPrefix)
  else None.

Definition NewSourceImgFromString (app : App) (simg : string) : App :=
  match strip_prefix simg with
  | None => app
  | Some payload =>
      let '(img, err) := image_Decode payload in
      let app := set_sourceImg app img in
      match err with
      | Some _ => app
      | None =>
          let srcWidth := Dx (sourceImg app) in
          let srcHeight := Dy (sourceImg app) in
          let dstWidth := dstWidth app in
          let dstHeight := dstHeight_of srcWidth srcHeight dstWidth in
          set_resizedImg app
            (transform_Resize (sourceImg app) dstWidth dstHeight Linear)
      end
  end.

Fixpoint PreviewImg_loop (effs : list Effect) (img : Image) : run Image :=
  match effs with
  | [] => Done img
  | eff :: rest =>
      match GetEffectFn eff with
      | Some fn => PreviewImg_loop rest (fn img)
      | None => Panic NilFuncCall
      end
  end.

Definition PreviewImg (app : App) : run Image :=
  PreviewImg_loop (effects app) (resizedImg app).

(** [JsApp] embeds an [App]; [NewJsApp] takes its argument by value,
    and the callbacks it registers close over both the new [jsa] and
    that argument, [app]. *)
Record JsApp : Type := {
  embedded : App;
  app_arg : App
}.

Definition NewJsApp (app : App) : JsApp :=
  {| embedded := app; app_arg := app |}.

Definition with_embedded (jsa : JsApp) (a : App) : JsApp :=
  {| embedded := a; app_arg := app_arg jsa |}.

(** The [onload] callback of [UploadCallback], on the data URL read. *)
Definition UploadCallback (jsa : JsApp) (result : string) : JsApp :=
  with_embedded jsa (NewSourceImgFromString (embedded jsa) result).

(** The effect [AddEffectCallback] builds for the selected option. *)
Definition new_Effect (selected : string) (c : Z) : Effect :=
  {| Id := selected +:+ Go.Itoa c; Name := selected;
     Value := S754_zero false; Min := 2; Max := 2 |}.

(** [AddEffectCallback]: [jsa.cnt++], then the effect whose [Id] ends
    in [strconv.Itoa(app.cnt)], the counter of the argument of
    [NewJsApp]. *)
Definition AddEffectCallback (jsa : JsApp) (selected : string) : JsApp :=
  let a := set_cnt (embedded jsa) (Go.int_incr (cnt (embedded jsa))) in
  let eff := new_Effect selected (cnt (app_arg jsa)) in
  with_embedded jsa (Append a eff).

Definition ChangeEffectsCallback (jsa : JsApp) (id : string)
    (valueAsNumber : Go.float64) : JsApp :=
  with_embedded jsa (Update (embedded jsa) id valueAsNumber).

(** The second revision in [main.go] registers the listeners on the
    [*App] itself; [addEffectBtnClickListener] is its counterpart of
    [AddEffectCallback] and reads the counter it has incremented. *)
Definition addEffectBtnClickListener (app : App) (selected : string) : App :=
  let a := set_cnt app (Go.int_incr (cnt app)) in
  Append a (new_Effect selected (cnt a)).

End WithEnv.

End Main.

(** ** The revision with the effect catalog (src/unnamed/part_001) *)

Module Catalog.

Section WithEnv.
Context `{Env}.

(** Here the closures index [values[0]] when they run. *)
Definition effectFn : Type := Image -> run Image.

Record Effect : Type := {
  Name : string;
  Min : Z;
  Max : Z
}.

Definition with_value0 (values : list Go.float64) (f : Go.float64 -> Image)
  : run Image :=
  match values with
  | v :: _ => Done (f v)
  | [] => Panic IndexOutOfRange
  end.

Definition GetEffectFn (eff : Effect) (values : list Go.float64)
  : option effectFn :=
  if String.eqb (Name eff) "brightness" then
    Some (fun img => with_value0 values (adjust_Brightness img))
  else if String.eqb (Name eff) "contrast" then
    Some (fun img => with_value0 values (adjust_Contrast img))
  else if String.eqb (Name eff) "edge-detection" then
    Some (fun img => with_value0 values (effect_EdgeDetection img))
  else None.

Definition transformFn : Type := list Go.float64 -> option effectFn.

Record Transformation : Type := {
  effect : Effect;
  Id : string;
  Values : list Go.float64;
  Fn : transformFn
}.

Definition Transform (t : Transformation) : option effectFn :=
  Fn t (Values t).

Definition set_Values (t : Transformation) (values : list Go.float64)
  : Transformation :=
  {| effect := effect t; Id := Id t; Values := values; Fn := Fn t |}.

Record App : Type := {
  cnt : Z;
  dstWidth : Z;
  sourceImg : Image;
  resizedImg : Image;
  Effects : list Effect;
  transformations : list Transformation
}.

Definition NewApp : App :=
  {| cnt := 0; dstWidth := 200; sourceImg := nilImage; resizedImg := nilImage;
     Effects := [ {| Name := "contrast"; Min := -2; Max := 2 |};
                  {| Name := "brightness"; Min := -2; Max := 2 |};
                  {| Name := "edge-detection"; Min := -2; Max := 2 |} ];
     transformations := [] |}.

Definition set_cnt (app : App) (c : Z) : App :=
  {| cnt := c; dstWidth := dstWidth app; sourceImg := sourceImg app;
     resizedImg := resizedImg app; Effects := Effects app;
     transformations := transformations app |}.

Definition set_transformations (app : App) (ts : list Transformation) : App :=
  {| cnt := cnt app; dstWidth := dstWidth app; sourceImg := sourceImg app;
     resizedImg := resizedImg app; Effects := Effects app;
     transformations := ts |}.

Definition Append (app : App) (t : Transformation) : App :=
  set_transformations app (transformations app ++ [t]).

Fixpoint Update_loop (ts : list Transformation) (id : string)
    (values : list Go.float64) : list Transformation :=
  match ts with
  | [] => []
  | t :: rest =>
      if String.eqb (Id t) id then set_Values t values :: rest
      else t :: Update_loop rest id values
  end.

Definition Update (app : App) (id : string) (values : list Go.float64) : App :=
  set_transformations app (Update_loop (transformations app) id values).

Definition set_sourceImg (app : App) (img : Image) : App :=
  {| cnt := cnt app; dstWidth := dstWidth app; sourceImg := img;
     resizedImg := resizedImg app; Effects := Effects app;
     transformations := transformations app |}.

Definition set_resizedImg (app : App) (img : Image) : App :=
  {| cnt := cnt app; dstWidth := dstWidth app; sourceImg := sourceImg app;
     resizedImg := img; Effects := Effects app;
     transformations := transformations app |}.

(** [NewSourceImgFromString] is the one of [main.go], line for line. *)
Definition NewSourceImgFromString (app : App) (simg : string) : App :=
  match Main.strip_prefix simg with
  | None => app
  | Some payload =>
      let '(img, err) := image_Decode payload in
      let app := set_sourceImg app img in
      match err with
      | Some _ => app
      | None =>
          let srcWidth := Dx (sourceImg app) in
          let srcHeight := Dy (sourceImg app) in
          let dstWidth := dstWidth app in
          let dstHeight := dstHeight_of srcWidth srcHeight dstWidth in
          set_resizedImg app
            (transform_Resize (sourceImg app) dstWidth dstHeight Linear)
      end
  end.

Fixpoint PreviewImg_loop (ts : list Transformation) (img : Image) : run Image :=
  match ts with
  | [] => Done img
  | t :: rest =>
      match Transform t with
      | Some fn =>
          match fn img with
          | Done img' => PreviewImg_loop rest img'
          | Panic why => Panic why
          end
      | None => Panic NilFuncCall
      end
  end.

Definition PreviewImg (app : App) : run Image :=
  PreviewImg_loop (transformations app) (resizedImg app).

(** The transformation [AddEffectCallback] builds for the selected
    option; here the [Id] ends in [strconv.Itoa(jsa.cnt)]. *)
Definition new_Transformation (selected : string) (c : Z) : Transformation :=
  let eff := {| Name := selected; Min := -2; Max := 2 |} in
  {| effect := eff; Id := selected +:+ Go.Itoa c;
     Values := [S754_zero false]; Fn := GetEffectFn eff |}.

(** The callbacks close over [jsa] only, that is over the embedded
    [App]. *)
Definition AddEffectCallback (jsa : App) (selected : string) : App :=
  let a := set_cnt jsa (Go.int_incr (cnt jsa)) in
  Append a (new_Transformation selected (cnt a)).

Definition ChangeEffectsCallback (jsa : App) (id : string)
    (valueAsNumber : Go.float64) : App :=
  Update jsa id [valueAsNumber].

Definition UploadCallback (jsa : App) (result : string) : App :=
  NewSourceImgFromString jsa result.

End WithEnv.

End Catalog.

(** ** A term model of the environment *)

Module TermLib.

(** Images are the terms built by the library calls. *)
Inductive timage : Type :=
  | TNil
  | TDecoded (w h : Z)
  | TResize (src : timage) (w h : Z) (filter : ResampleFilter)
  | TBrightness (src : timage) (change : Go.float64)
  | TContrast (src : timage) (change : Go.float64)
  | TEdgeDetection (src : timage) (radius : Go.float64).

Fixpoint width (img : timage) : Z :=
  match img with
  | TNil => 0
  | TDecoded w _ => w
  | TResize _ w h _ => if (w <=? 0) || (h <=? 0) then 0 else w
  | TBrightness src _ | TContrast src _ | TEdgeDetection src _ => width src
  end.

Fixpoint height (img : timage) : Z :=
  match img with
  | TNil => 0
  | TDecoded _ h => h
  | TResize _ w h _ => if (w <=? 0) || (h <=? 0) then 0 else h
  | TBrightness src _ | TContrast src _ | TEdgeDetection src _ => height src
  end.

(** The stand-in codec: the payload [WxH], two decimal numbers, is the
    encoding of a [W] by [H] image; anything else is malformed. *)
Definition digit_of (c : ascii) : option Z :=
  let n := Z.of_N (N_of_ascii c) in
  if (48 <=? n) && (n <=? 57) then Some (n - 48) else None.

Fixpoint parse_dims (s : string) (w : option Z) (acc : option Z)
  : option (Z * Z) :=
  match s with
  | EmptyString =>
      match w, acc with
      | Some w, Some h => Some (w, h)
      | _, _ => None
      end
  | String c r =>
      match digit_of c with
      | Some d => parse_dims r w (Some (10 * default 0 acc + d))
      | None =>
          if Ascii.eqb c "x" then
            match w, acc with
            | None, Some n => parse_dims r (Some n) None
            | _, _ => None
            end
          else None
      end
  end.

Definition decode (payload : string) : timage * option string :=
  match parse_dims payload None None with
  | Some (w, h) => (TDecoded w h, None)
  | None => (TNil, Some "image: unknown format")
  end.

(** Out-of-range conversions give the least [int], as on amd64. *)
#[global] Instance env : Env := {|
  Image := timage;
  nilImage := TNil;
  image_Decode := decode;
  Dx := width;
  Dy := height;
  transform_Resize := TResize;
  adjust_Brightness := TBrightness;
  adjust_Contrast := TContrast;
  effect_EdgeDetection := TEdgeDetection;
  int_of_unrepresentable := fun _ => Go.int_min
|}.

End TermLib.

(** ** Notions the properties are stated with *)

(** The kinds [Main.GetEffectFn] handles, and those of the catalog
    revision. *)
Definition registered (name : string) : bool :=
  String.eqb name "brightness" || String.eqb name "contrast".

Definition registered_catalog (name : string) : bool :=
  String.eqb name "brightness" || String.eqb name "contrast"
  || String.eqb name "edge-detection".

(** The transform of a kind, as a function of the value and the image. *)
Definition kind_transform `{Env} (name : string) (value : Go.float64)
    (img : Image) : Image :=
  if String.eqb name "brightness" then adjust_Brightness img value
  else if String.eqb name "contrast" then adjust_Contrast img value
  else if String.eqb name "edge-detection" then effect_EdgeDetection img value
  else img.

(** One step of the left-to-right fold of the pipeline over the outcome
    of the previous steps. *)
Definition fold_step `{Env} (acc : run Image) (eff : Main.Effect) : run Image :=
  match acc with
  | Done img =>
      match Main.GetEffectFn eff with
      | Some fn => Done (fn img)
      | None => Panic NilFuncCall
      end
  | Panic why => Panic why
  end.

Definition catalog_fold_step `{Env} (acc : run Image) (t : Catalog.Transformation)
  : run Image :=
  match acc with
  | Done img =>
      match Catalog.Transform t with
      | Some fn => fn img
      | None => Panic NilFuncCall
      end
  | Panic why => Panic why
  end.

(** The ceiling of the exact quotient [a / b], for [0 < b]. *)
Definition ceil_div (a b : Z) : Z := - ((- a) / b).

(** The events of a session of [main.go], and the session they drive. *)
Inductive event : Type :=
  | Upload (dataURL : string)
  | AddEffect (selected : string)
  | ChangeEffect (id : string) (valueAsNumber : Go.float64).

Definition handle `{Env} (jsa : Main.JsApp) (ev : event) : Main.JsApp :=
  match ev with
  | Upload dataURL => Main.UploadCallback jsa dataURL
  | AddEffect selected => Main.AddEffectCallback jsa selected
  | ChangeEffect id v => Main.ChangeEffectsCallback jsa id v
  end.

Definition session `{Env} (evs : list event) : Main.JsApp :=
  fold_left handle evs (Main.NewJsApp Main.NewApp).

Definition catalog_handle `{Env} (jsa : Catalog.App) (ev : event) : Catalog.App :=
  match ev with
  | Upload dataURL => Catalog.UploadCallback jsa dataURL
  | AddEffect selected => Catalog.AddEffectCallback jsa selected
  | ChangeEffect id v => Catalog.ChangeEffectsCallback jsa id v
  end.

Definition catalog_session `{Env} (evs : list event) : Catalog.App :=
  fold_left catalog_handle evs Catalog.NewApp.

(** The events that select a kind outside the catalog; the selector of the
    catalog revision offers the kinds of [Effects] only. *)
Definition offered (ev : event) : bool :=
  match ev with
  | AddEffect selected => registered_catalog selected
  | _ => true
  end.

(** The transformations the catalog revision builds: the function is the
    one of the transformation's own effect, and one value is held. *)
Definition well_formed `{Env} (t : Catalog.Transformation) : Prop :=
  Catalog.Fn t = Catalog.GetEffectFn (Catalog.effect t)
  /\ length (Catalog.Values t) = 1%nat.

(** Whether [v] lies between the integer bounds [lo] and [hi]. *)
Definition within_range (lo hi : Z) (v : Go.float64) : bool :=
  Go.fleb (Go.float64_of_int lo) v && Go.fleb v (Go.float64_of_int hi).

(** The ids in the pipeline of the catalog revision are distinct, and each
    was built from a catalog name and a counter value already passed. *)
Definition ids_fresh `{Env} (app : Catalog.App) : Prop :=
  0 <= Catalog.cnt app
  /\ NoDup (map Catalog.Id (Catalog.transformations app))
  /\ forall id, In id (map Catalog.Id (Catalog.transformations app)) ->
       exists n c, id = n +:+ Go.Itoa c /\ registered_catalog n = true
                   /\ 1 <= c <= Catalog.cnt app.

(** The names selected by the add events of a session, in order. *)
Fixpoint selected_names (evs : list event) : list string :=
  match evs with
  | [] => []
  | AddEffect selected :: rest => selected :: selected_names rest
  | _ :: rest => selected_names rest
  end.

(** Every instance whose id occurs in [seen] or earlier in the pipeline
    still has the value 0 it was created with. *)
Fixpoint shadowed_at_zero (seen : list string) (effs : list Main.Effect) : Prop :=
  match effs with
  | [] => True
  | eff :: rest =>
      (In (Main.Id eff) seen -> Main.Value eff = S754_zero false)
      /\ shadowed_at_zero (Main.Id eff :: seen) rest
  end.

(** A shift record that has lost no bit. *)
Definition exact_record (m : Z) : shr_record :=
  {| shr_m := m; shr_r := false; shr_s := false |}.

(** Decimal digits, and names that do not end in one. *)
Definition is_digit (c : ascii) : bool :=
  (48 <=? Z.of_N (N_of_ascii c)) && (Z.of_N (N_of_ascii c) <=? 57).

Fixpoint all_digits (s : string) : bool :=
  match s with
  | EmptyString => true
  | String c r => is_digit c && all_digits r
  end.

Fixpoint ends_in_digit (s : string) : bool :=
  match s with
  | EmptyString => false
  | String c EmptyString => is_digit c
  | String _ r => ends_in_digit r
  end.

(** The second revision in [main.go]: the listeners work on the [*App]. *)
Definition listener_handle `{Env} (app : Main.App) (ev : event) : Main.App :=
  match ev with
  | Upload dataURL => Main.NewSourceImgFromString app dataURL
  | AddEffect selected => Main.addEffectBtnClickListener app selected
  | ChangeEffect id v => Main.Update app id v
  end.

Definition listener_session `{Env} (evs : list event) : Main.App :=
  fold_left listener_handle evs Main.NewApp.

(** The add events select names that do not end in a digit. *)
Definition plain_name (ev : event) : bool :=
  match ev with
  | AddEffect selected => negb (ends_in_digit selected)
  | _ => true
  end.

(** The ids of the pipeline are distinct, and each is a name that does not
    end in a digit followed by a counter value already passed. *)
Definition listener_ids_fresh `{Env} (app : Main.App) : Prop :=
  0 <= Main.cnt app
  /\ NoDup (map Main.Id (Main.effects app))
  /\ forall id, In id (map Main.Id (Main.effects app)) ->
       exists n c, id = n +:+ Go.Itoa c /\ ends_in_digit n = false
                   /\ 1 <= c <= Main.cnt app.

(** A transformation the callbacks built for a kind of the catalog. *)
Definition sound `{Env} (t : Catalog.Transformation) : Prop :=
  well_formed t /\ registered_catalog (Catalog.Name (Catalog.effect t)) = true.

(** ** The page: what the callbacks of main.go display *)

(** The rest of the environment of [JsApp]: the nil test on an
    [image.Image], the JPEG encoder of [imgio] and the base64 encoder. *)
Class Shell `{Env} : Type := {
  (** [img == nil]. *)
  is_nil : Image -> bool;
  is_nil_nilImage : is_nil nilImage = true;
  (** [transform.Resize] returns a pointer to a fresh image, never nil. *)
  Resize_not_nil : forall img w h filter,
    is_nil (transform_Resize img w h filter) = false;
  (** [imgio.JPEGEncoder(quality)(w, img)]: the bytes written to [w], and
      the error if any. *)
  JPEGEncoder : Z -> Image -> list Byte.byte * option string;
  (** [base64.StdEncoding.EncodeToString]. *)
  EncodeToString : list Byte.byte -> string
}.

Module Dom.

Section WithShell.
Context `{Shell}.

(** The [JsApp] with its buffer [buf], and the [src] attribute of the
    elements of the document, by element id.  The document is taken to hold
    the elements the callbacks look up. *)
Record World : Type := {
  jsa : Main.JsApp;
  buf : list Byte.byte;
  src : gmap string string
}.

Definition NewWorld : World :=
  {| jsa := Main.NewJsApp Main.NewApp; buf := []; src := ∅ |}.

Definition with_jsa (w : World) (j : Main.JsApp) : World :=
  {| jsa := j; buf := buf w; src := src w |}.

(** [UpdateImgSrcById]: nothing for a nil image; otherwise the image is
    encoded into [buf], an encoder error is logged only, the element gets
    the data URL of the bytes of [buf], and [buf] is reset. *)
Definition UpdateImgSrcById (w : World) (Id : string) (img : Image) : World :=
  if is_nil img then w
  else
    let '(written, err) := JPEGEncoder 90 img in
    let buf' := buf w ++ written in
    {| jsa := jsa w; buf := [];
       src := <[Id := jpegPrefix +:+ EncodeToString buf']> (src w) |}.

(** The [onload] callback of [UploadCallback]. *)
Definition UploadCallback (w : World) (result : string) : run World :=
  let w1 := with_jsa w (Main.UploadCallback (jsa w) result) in
  let w2 := UpdateImgSrcById w1 "previewImg"
              (Main.resizedImg (Main.embedded (jsa w1))) in
  match Main.PreviewImg (Main.embedded (jsa w2)) with
  | Done img => Done (UpdateImgSrcById w2 "targetImg" img)
  | Panic why => Panic why
  end.

Definition ChangeEffectsCallback (w : World) (id : string)
    (valueAsNumber : Go.float64) : run World :=
  let w1 := with_jsa w (Main.ChangeEffectsCallback (jsa w) id valueAsNumber) in
  match Main.PreviewImg (Main.embedded (jsa w1)) with
  | Done img => Done (UpdateImgSrcById w1 "targetImg" img)
  | Panic why => Panic why
  end.

(** [AddEffectCallback] renders no image; the markup it inserts for the
    slider is not part of [src]. *)
Definition AddEffectCallback (w : World) (selected : string) : run World :=
  Done (with_jsa w (Main.AddEffectCallback (jsa w) selected)).

Definition dispatch (w : World) (ev : event) : run World :=
  match ev with
  | Upload dataURL => UploadCallback w dataURL
  | AddEffect selected => AddEffectCallback w selected
  | ChangeEffect id v => ChangeEffectsCallback w id v
  end.

(** The events in order; a panic ends the program. *)
Fixpoint play (evs : list event) (w : World) : run World :=
  match evs with
  | [] => Done w
  | ev :: rest =>
      match dispatch w ev with
      | Done w' => play rest w'
      | Panic why => Panic why
      end
  end.

(** What the page may show: every [src] written is the data URL of the
    encoding of one image, and only the two image elements have one. *)
Definition shown_ok (w : World) : Prop :=
  buf w = []
  /\ forall id s, src w !! id = Some s ->
        (id = "previewImg" \/ id = "targetImg")
        /\ exists img, s = jpegPrefix +:+ EncodeToString (fst (JPEGEncoder 90 img)).

(** The data URL [UpdateImgSrcById] writes for an image when [buf] is
    empty. *)
Definition data_url (img : Image) : string :=
  jpegPrefix +:+ EncodeToString (fst (JPEGEncoder 90 img)).

(** The element [previewImg] shows the current resized image, and nothing
    while there is none. *)
Definition preview_in_sync (w : World) : Prop :=
  src w !! "previewImg"
  = if is_nil (Main.resizedImg (Main.embedded (jsa w))) then None
    else Some (data_url (Main.resizedImg (Main.embedded (jsa w)))).

End WithShell.

End Dom.

(** The term model of the shell: an image is encoded as one byte per
    pixel row, and bytes print as the characters they are. *)
Module TermShell.

Definition nil_image (img : TermLib.timage) : bool :=
  match img with
  | TermLib.TNil => true
  | _ => false
  end.

Definition one_byte_per_row (quality : Z) (img : TermLib.timage)
  : list Byte.byte * option string :=
  (repeat Byte.x2a (Z.to_nat (TermLib.height img)), None).

#[global] Instance shell : Shell := {|
  is_nil := nil_image;
  is_nil_nilImage := eq_refl;
  Resize_not_nil := fun _ _ _ _ => eq_refl;
  JPEGEncoder := one_byte_per_row;
  EncodeToString := string_of_list_byte
|}.

End TermShell.

(** The bild calls return a fresh image, never nil, when they are given
    an image.  Together with a base image that is not nil this makes every
    library call of a rendering a call on an image. *)
Definition library_returns_images `{Env} : Prop :=
  forall (img : Image) (v : Go.float64),
    img <> nilImage ->
    adjust_Brightness img v <> nilImage
    /\ adjust_Contrast img v <> nilImage
    /\ effect_EdgeDetection img v <> nilImage.

(** * Properties *)

(** ** The pipeline of main.go *)

Module MainFacts.

Section WithEnv.
Context `{Env}.

Import Main.

Lemma GetEffectFn_registered (eff : Effect) :
  registered (Name eff) = true ->
  GetEffectFn eff = Some (kind_transform (Name eff) (Value eff)).
Proof.
  unfold registered, GetEffectFn, kind_transform.
  destruct (String.eqb (Name eff) "brightness") eqn:Hb; [reflexivity|].
  destruct (String.eqb (Name eff) "contrast") eqn:Hc; [reflexivity|].
  discriminate.
Qed.

Lemma GetEffectFn_unregistered (eff : Effect) :
  registered (Name eff) = false <-> GetEffectFn eff = None.
Proof.
  unfold registered, GetEffectFn.
  destruct (String.eqb (Name eff) "brightness");
    destruct (String.eqb (Name eff) "contrast"); simpl; split; congruence.
Qed.

Lemma fold_step_Panic (effs : list Effect) (why : panic) :
  fold_left fold_step effs (Panic why) = Panic why.
Proof. induction effs as [|eff effs IH]; simpl; auto. Qed.

Lemma PreviewImg_loop_fold (effs : list Effect) (img : Image) :
  PreviewImg_loop effs img = fold_left fold_step effs (Done img).
Proof.
  revert img. induction effs as [|eff effs IH]; intros img; simpl.
  - reflexivity.
  - destruct (GetEffectFn eff) as [fn|].
    + apply IH.
    + symmetry. apply fold_step_Panic.
Qed.

Lemma PreviewImg_loop_app (l1 l2 : list Effect) (img : Image) :
  PreviewImg_loop (l1 ++ l2) img =
  match PreviewImg_loop l1 img with
  | Done img' => PreviewImg_loop l2 img'
  | Panic why => Panic why
  end.
Proof.
  revert img. induction l1 as [|eff l1 IH]; intros img; simpl.
  - reflexivity.
  - destruct (GetEffectFn eff) as [fn|]; [apply IH | reflexivity].
Qed.

Lemma PreviewImg_loop_registered (effs : list Effect) (img : Image) :
  forallb (fun eff => registered (Name eff)) effs = true ->
  PreviewImg_loop effs img =
  Done (fold_left (fun i eff => kind_transform (Name eff) (Value eff) i) effs img).
Proof.
  revert img. induction effs as [|eff effs IH]; intros img Hall; simpl in *.
  - reflexivity.
  - apply andb_true_iff in Hall as [Hr Hall].
    rewrite (GetEffectFn_registered _ Hr). apply IH, Hall.
Qed.

Lemma PreviewImg_loop_outcome (effs : list Effect) (img : Image) :
  (exists img', PreviewImg_loop effs img = Done img')
  \/ PreviewImg_loop effs img = Panic NilFuncCall.
Proof.
  revert img. induction effs as [|eff effs IH]; intros img; simpl.
  - left. eauto.
  - destruct (GetEffectFn eff); [apply IH | right; reflexivity].
Qed.

Lemma PreviewImg_loop_panics (effs : list Effect) (img : Image) :
  PreviewImg_loop effs img = Panic NilFuncCall <->
  forallb (fun eff => registered (Name eff)) effs = false.
Proof.
  revert img. induction effs as [|eff effs IH]; intros img; simpl.
  - split; discriminate.
  - destruct (registered (Name eff)) eqn:Hr; simpl.
    + rewrite (GetEffectFn_registered _ Hr). apply IH.
    + apply GetEffectFn_unregistered in Hr. rewrite Hr. tauto.
Qed.

Lemma Update_loop_absent (effs : list Effect) (id : string) (v : Go.float64) :
  (forall eff, In eff effs -> Id eff <> id) ->
  Update_loop effs id v = effs.
Proof.
  induction effs as [|eff effs IH]; intros Habs; simpl.
  - reflexivity.
  - destruct (String.eqb (Id eff) id) eqn:E.
    + apply String.eqb_eq in E. exfalso. apply (Habs eff); simpl; auto.
    + f_equal. apply IH. intros e He. apply Habs. simpl; auto.
Qed.

Lemma Update_loop_first (l1 l2 : list Effect) (eff : Effect) (v : Go.float64) :
  (forall e, In e l1 -> Id e <> Id eff) ->
  Update_loop (l1 ++ eff :: l2) (Id eff) v = l1 ++ set_Value eff v :: l2.
Proof.
  induction l1 as [|e l1 IH]; intros Hl1; simpl.
  - rewrite String.eqb_refl. reflexivity.
  - destruct (String.eqb (Id e) (Id eff)) eqn:E.
    + apply String.eqb_eq in E. exfalso. apply (Hl1 e); simpl; auto.
    + f_equal. apply IH. intros e' He'. apply Hl1. simpl; auto.
Qed.

Lemma Update_loop_length (effs : list Effect) (id : string) (v : Go.float64) :
  length (Update_loop effs id v) = length effs.
Proof.
  induction effs as [|eff effs IH]; simpl; [reflexivity|].
  destruct (String.eqb (Id eff) id); simpl; congruence.
Qed.

End WithEnv.

End MainFacts.

(** ** The pipeline of the catalog revision *)

Module CatalogFacts.

Section WithEnv.
Context `{Env}.

Import Catalog.

Lemma new_Transformation_well_formed (selected : string) (c : Z) :
  well_formed (new_Transformation selected c).
Proof. split; reflexivity. Qed.

Lemma set_Values_well_formed (t : Transformation) (v : Go.float64) :
  well_formed t -> well_formed (set_Values t [v]).
Proof. intros [Hfn _]. split; [exact Hfn | reflexivity]. Qed.

Lemma Update_loop_well_formed (ts : list Transformation) (id : string)
    (v : Go.float64) :
  Forall well_formed ts -> Forall well_formed (Update_loop ts id [v]).
Proof.
  induction 1 as [|t ts Ht Hts IH]; simpl; [constructor|].
  destruct (String.eqb (Id t) id); constructor; auto.
  apply set_Values_well_formed, Ht.
Qed.

Lemma catalog_GetEffectFn_unregistered (eff : Effect) (values : list Go.float64) :
  registered_catalog (Name eff) = false <-> GetEffectFn eff values = None.
Proof.
  unfold registered_catalog, GetEffectFn.
  destruct (String.eqb (Name eff) "brightness");
    destruct (String.eqb (Name eff) "contrast");
    destruct (String.eqb (Name eff) "edge-detection");
    simpl; split; congruence.
Qed.

(** What one step does on a well-formed transformation. *)
Lemma catalog_fold_step_well_formed (t : Transformation) (img : Image) :
  well_formed t ->
  catalog_fold_step (Done img) t =
  if registered_catalog (Name (effect t)) then
    Done (kind_transform (Name (effect t)) (hd (S754_zero false) (Values t)) img)
  else Panic NilFuncCall.
Proof.
  intros [Hfn Hlen]. unfold catalog_fold_step, Transform. rewrite Hfn.
  destruct (Values t) as [|v [|v' vs]]; try discriminate. simpl.
  unfold GetEffectFn, registered_catalog, kind_transform.
  destruct (String.eqb (Name (effect t)) "brightness"); [reflexivity|].
  destruct (String.eqb (Name (effect t)) "contrast"); [reflexivity|].
  destruct (String.eqb (Name (effect t)) "edge-detection"); reflexivity.
Qed.

Lemma catalog_fold_step_Panic (ts : list Transformation) (why : panic) :
  fold_left catalog_fold_step ts (Panic why) = Panic why.
Proof. induction ts as [|t ts IH]; simpl; auto. Qed.

Lemma catalog_PreviewImg_loop_fold (ts : list Transformation) (img : Image) :
  PreviewImg_loop ts img = fold_left catalog_fold_step ts (Done img).
Proof.
  revert img. induction ts as [|t ts IH]; intros img; simpl.
  - reflexivity.
  - destruct (Transform t) as [fn|].
    + destruct (fn img) as [img'|why].
      * apply IH.
      * symmetry. apply catalog_fold_step_Panic.
    + symmetry. apply catalog_fold_step_Panic.
Qed.

Lemma catalog_PreviewImg_loop_panics (ts : list Transformation) (img : Image) :
  Forall well_formed ts ->
  (PreviewImg_loop ts img = Panic NilFuncCall <->
   forallb (fun t => registered_catalog (Name (effect t))) ts = false).
Proof.
  intros Hwf. revert img.
  induction Hwf as [|t ts Ht Hts IH]; intros img.
  - simpl. split; discriminate.
  - rewrite catalog_PreviewImg_loop_fold. simpl forallb.
    change (fold_left catalog_fold_step (t :: ts) (Done img))
      with (fold_left catalog_fold_step ts (catalog_fold_step (Done img) t)).
    rewrite (catalog_fold_step_well_formed t img Ht).
    destruct (registered_catalog (Name (effect t))); simpl.
    + rewrite <- catalog_PreviewImg_loop_fold. apply IH.
    + rewrite catalog_fold_step_Panic. tauto.
Qed.

Lemma catalog_PreviewImg_loop_registered (ts : list Transformation) (img : Image) :
  Forall well_formed ts ->
  forallb (fun t => registered_catalog (Name (effect t))) ts = true ->
  PreviewImg_loop ts img =
  Done (fold_left
          (fun i t => kind_transform (Name (effect t))
                        (hd (S754_zero false) (Values t)) i) ts img).
Proof.
  intros Hwf. revert img.
  induction Hwf as [|t ts Ht Hts IH]; intros img Hall.
  - reflexivity.
  - simpl in Hall. apply andb_true_iff in Hall as [Hr Hall].
    rewrite catalog_PreviewImg_loop_fold.
    change (fold_left catalog_fold_step (t :: ts) (Done img))
      with (fold_left catalog_fold_step ts (catalog_fold_step (Done img) t)).
    rewrite (catalog_fold_step_well_formed t img Ht), Hr.
    rewrite <- catalog_PreviewImg_loop_fold. apply IH, Hall.
Qed.

(** Every transformation the callbacks put in the pipeline is
    well formed. *)
Lemma AddEffectCallback_well_formed (jsa : App) (selected : string) :
  Forall well_formed (transformations jsa) ->
  Forall well_formed (transformations (AddEffectCallback jsa selected)).
Proof.
  intros Hwf. unfold AddEffectCallback, Append. simpl.
  apply Forall_app. split; [exact Hwf|].
  constructor; [apply new_Transformation_well_formed | constructor].
Qed.

Lemma ChangeEffectsCallback_well_formed (jsa : App) (id : string)
    (v : Go.float64) :
  Forall well_formed (transformations jsa) ->
  Forall well_formed (transformations (ChangeEffectsCallback jsa id v)).
Proof. intros Hwf. simpl. apply Update_loop_well_formed, Hwf. Qed.

End WithEnv.

End CatalogFacts.

(** ** The claims about the pipeline *)

Lemma forallb_false_iff {A : Type} (f : A -> bool) (l : list A) :
  forallb f l = false <-> exists x, In x l /\ f x = false.
Proof.
  induction l as [|a l IH]; simpl.
  - split; [discriminate | intros (x & [] & _)].
  - rewrite andb_false_iff, IH. split.
    + intros [Ha | (x & Hx & Hf)]; eauto.
    + intros (x & [-> | Hx] & Hf); eauto.
Qed.

(** C2, as stated, fails: appending the unregistered kind ["sepia"] is
    accepted and the pipeline grows from 0 to 1 instance, although no
    effect function exists for it. *)
Lemma append_unknown_kind_grows :
  let before := Main.NewJsApp Main.NewApp in
  let after := Main.AddEffectCallback before "sepia" in
  registered "sepia" = false
  /\ length (Main.effects (Main.embedded before)) = 0%nat
  /\ length (Main.effects (Main.embedded after)) = 1%nat
  /\ map Main.GetEffectFn (Main.effects (Main.embedded after)) = [None].
Proof. repeat split. Qed.

(** C2, amended: appending never fails and never checks the kind.  For
    every selected name, registered or not, [AddEffectCallback] puts one
    new instance of that name, with value 0, at the end of the pipeline and
    keeps the instances already there; [Append] does so for any effect.
    The length grows by one. *)
Theorem append_always_extends `{Env} (jsa : Main.JsApp) (selected : string)
    (app : Main.App) (eff : Main.Effect) :
  let after := Main.embedded (Main.AddEffectCallback jsa selected) in
  (exists new, Main.effects after = Main.effects (Main.embedded jsa) ++ [new]
               /\ Main.Name new = selected
               /\ Main.Value new = S754_zero false)
  /\ length (Main.effects after) = S (length (Main.effects (Main.embedded jsa)))
  /\ Main.effects (Main.Append app eff) = Main.effects app ++ [eff]
  /\ length (Main.effects (Main.Append app eff)) = S (length (Main.effects app)).
Proof.
  simpl. repeat split.
  - eexists. repeat split.
  - rewrite length_app. simpl. lia.
  - rewrite length_app. simpl. lia.
Qed.

(** C3, as stated, fails: the value 5 sent for the instance ["contrast0"],
    whose bounds are 2 and 2 (a slider from -2 to 2), is stored as it is;
    it lies in neither range. *)
Lemma update_stores_out_of_range :
  let jsa := session [AddEffect "contrast";
                      ChangeEffect "contrast0" (Go.float64_of_int 5)] in
  map (fun e => (Main.Id e, Main.Min e, Main.Max e, Main.Value e))
      (Main.effects (Main.embedded jsa))
    = [("contrast0", 2, 2, Go.float64_of_int 5)]
  /\ within_range 2 2 (Go.float64_of_int 5) = false
  /\ within_range (-2) 2 (Go.float64_of_int 5) = false.
Proof. vm_compute. repeat split. Qed.

Lemma Update_loop_insert (effs : list Main.Effect) (i : nat)
    (e : Main.Effect) (v : Go.float64) :
  effs !! i = Some e ->
  (forall j e', (j < i)%nat -> effs !! j = Some e' -> Main.Id e' <> Main.Id e) ->
  Main.Update_loop effs (Main.Id e) v = <[i := Main.set_Value e v]> effs.
Proof.
  revert i. induction effs as [|a effs IH]; intros i Hi Hfirst.
  - discriminate.
  - destruct i as [|i]; simpl in *.
    + injection Hi as ->. rewrite String.eqb_refl. reflexivity.
    + destruct (String.eqb (Main.Id a) (Main.Id e)) eqn:E.
      * apply String.eqb_eq in E. exfalso.
        apply (Hfirst 0%nat a); [lia | reflexivity | exact E].
      * f_equal. apply IH; [exact Hi|].
        intros j e' Hj He'. apply (Hfirst (S j) e'); [lia | exact He'].
Qed.

(** C3, amended: [Update] does not clamp.  For the first instance of the
    pipeline whose id is [id], at index [i], [Update app id v] stores [v]
    itself, in range or not, and changes nothing else; the next
    [PreviewImg] runs that instance with the value [v], between the steps
    before it and the steps after it. *)
Theorem update_stores_value_unclamped `{Env} (app : Main.App) (id : string)
    (v : Go.float64) (i : nat) (e : Main.Effect) :
  Main.effects app !! i = Some e ->
  Main.Id e = id ->
  (forall j e', (j < i)%nat -> Main.effects app !! j = Some e' -> Main.Id e' <> id) ->
  Main.effects (Main.Update app id v) = <[i := Main.set_Value e v]> (Main.effects app)
  /\ Main.effects (Main.Update app id v) !! i = Some (Main.set_Value e v)
  /\ Main.Value (Main.set_Value e v) = v
  /\ Main.PreviewImg (Main.Update app id v) =
     fold_left fold_step (drop (S i) (Main.effects app))
       (fold_step
          (fold_left fold_step (take i (Main.effects app))
             (Done (Main.resizedImg app)))
          (Main.set_Value e v)).
Proof.
  intros Hi <- Hfirst.
  assert (Hupd : Main.effects (Main.Update app (Main.Id e) v)
                 = <[i := Main.set_Value e v]> (Main.effects app)).
  { simpl. apply Update_loop_insert; assumption. }
  assert (Hlt : (i < length (Main.effects app))%nat)
    by (eapply lookup_lt_Some; exact Hi).
  repeat split.
  - exact Hupd.
  - rewrite Hupd. apply list_lookup_insert_eq. exact Hlt.
  - unfold Main.PreviewImg. rewrite Hupd. simpl Main.resizedImg.
    rewrite MainFacts.PreviewImg_loop_fold.
    rewrite insert_take_drop by exact Hlt.
    rewrite fold_left_app. reflexivity.
Qed.

Lemma update_stores_value_unclamped_witness :
  let app := Main.embedded (session [AddEffect "contrast"; AddEffect "brightness"]) in
  Main.effects (Main.Update app "brightness0" (Go.float64_of_int 5)) !! 1%nat
  = Some (Main.set_Value (Main.new_Effect "brightness" 0) (Go.float64_of_int 5)).
Proof.
  intros app.
  refine (proj1 (proj2 (update_stores_value_unclamped app "brightness0"
            (Go.float64_of_int 5) 1 (Main.new_Effect "brightness" 0) _ _ _))).
  - reflexivity.
  - reflexivity.
  - intros j e' Hj He'. destruct j as [|j]; [|lia].
    vm_compute in He'. injection He' as <-. vm_compute. discriminate.
Defined.

Lemma NewSourceImgFromString_frame `{Env} (app : Main.App) (simg : string) :
  Main.effects (Main.NewSourceImgFromString app simg) = Main.effects app
  /\ Main.cnt (Main.NewSourceImgFromString app simg) = Main.cnt app
  /\ Main.dstWidth (Main.NewSourceImgFromString app simg) = Main.dstWidth app.
Proof.
  unfold Main.NewSourceImgFromString.
  destruct (Main.strip_prefix simg) as [payload|]; [|auto].
  destruct (image_Decode payload) as [img [err|]]; simpl; auto.
Qed.

(** C4: [PreviewImg] is the left-to-right fold of the pipeline, in
    insertion order, over the resized image, in [main.go] and in the
    catalog revision; each step applies the function of the instance, with
    its current value, to the image of the previous step.  After an upload,
    adding contrast and then brightness and setting their values to [c] and
    [b], the preview is [Brightness(Contrast(resized, c), b)]. *)
Theorem preview_folds_in_insertion_order `{Env} :
  (forall app : Main.App,
     Main.PreviewImg app
     = fold_left fold_step (Main.effects app) (Done (Main.resizedImg app)))
  /\ (forall app : Catalog.App,
        Catalog.PreviewImg app
        = fold_left catalog_fold_step (Catalog.transformations app)
            (Done (Catalog.resizedImg app)))
  /\ (forall (dataURL : string) (c b : Go.float64),
        Main.PreviewImg
          (Main.embedded
             (session [Upload dataURL; AddEffect "contrast"; AddEffect "brightness";
                       ChangeEffect "contrast0" c; ChangeEffect "brightness0" b]))
        = Done (adjust_Brightness
                  (adjust_Contrast
                     (Main.resizedImg (Main.embedded (session [Upload dataURL]))) c)
                  b))
  /\ (forall (app : Catalog.App) (c b : Go.float64),
        let start := Catalog.set_cnt (Catalog.set_transformations app []) 0 in
        let added :=
          Catalog.AddEffectCallback (Catalog.AddEffectCallback start "contrast")
            "brightness" in
        Catalog.PreviewImg
          (Catalog.ChangeEffectsCallback
             (Catalog.ChangeEffectsCallback added "contrast1" c) "brightness2" b)
        = Done (adjust_Brightness (adjust_Contrast (Catalog.resizedImg app) c) b)).
Proof.
  split; [|split; [|split]].
  - intros app. apply MainFacts.PreviewImg_loop_fold.
  - intros app. apply CatalogFacts.catalog_PreviewImg_loop_fold.
  - intros dataURL c b.
    change (session [Upload dataURL; AddEffect "contrast"; AddEffect "brightness";
                     ChangeEffect "contrast0" c; ChangeEffect "brightness0" b])
      with (fold_left handle
              [AddEffect "contrast"; AddEffect "brightness";
               ChangeEffect "contrast0" c; ChangeEffect "brightness0" b]
              (session [Upload dataURL])).
    assert (Heffs : Main.effects (Main.embedded (session [Upload dataURL])) = []
                    /\ Main.cnt (Main.app_arg (session [Upload dataURL])) = 0).
    { split; [|reflexivity]. apply NewSourceImgFromString_frame. }
    destruct (session [Upload dataURL]) as [[c1 w1 s1 r1 effs1] [c2 w2 s2 r2 effs2]].
    simpl in Heffs. destruct Heffs as [-> ->]. reflexivity.
  - intros app c b. reflexivity.
Qed.

(** C5: with an empty pipeline [PreviewImg] returns the base image, the
    resized image, unchanged. *)
Theorem preview_empty_pipeline_identity `{Env} (app : Main.App) :
  Main.effects app = [] ->
  Main.PreviewImg app = Done (Main.resizedImg app).
Proof. intros Hnil. unfold Main.PreviewImg. rewrite Hnil. reflexivity. Qed.

Lemma preview_empty_pipeline_identity_witness :
  let app := Main.embedded (session [Upload "data:image/png;base64,400x300"]) in
  Main.PreviewImg app = Done (TermLib.TResize (TermLib.TDecoded 400 300) 200 150 Linear).
Proof.
  intros app. apply (preview_empty_pipeline_identity app). reflexivity.
Defined.

(** C7: when no instance of the pipeline has the id, [Update] changes
    nothing: the whole [App], and so every instance, its value, the length
    and the order, is as before, and there is no failure. *)
Theorem update_absent_id_noop `{Env} (app : Main.App) (id : string)
    (v : Go.float64) :
  (forall eff, In eff (Main.effects app) -> Main.Id eff <> id) ->
  Main.Update app id v = app.
Proof.
  intros Habs. destruct app as [c w s r effs]. unfold Main.Update, Main.set_effects.
  simpl in *. f_equal. apply MainFacts.Update_loop_absent, Habs.
Qed.

Lemma update_absent_id_noop_witness :
  let app := Main.embedded (session [AddEffect "contrast"; AddEffect "brightness"]) in
  Main.Update app "contrast7" (Go.float64_of_int 1) = app.
Proof.
  intros app. apply (update_absent_id_noop app "contrast7" (Go.float64_of_int 1)).
  intros eff Hin. vm_compute in Hin.
  destruct Hin as [<- | [<- | []]]; vm_compute; discriminate.
Defined.

(** ** Renderings of a loaded image *)

Module ImageFacts.

Section WithEnv.
Context `{Env}.

Lemma registered_in_catalog (name : string) :
  registered name = true -> registered_catalog name = true.
Proof. unfold registered, registered_catalog. intros ->. reflexivity. Qed.

Lemma kind_transform_image (name : string) (v : Go.float64) (img : Image) :
  library_returns_images -> registered_catalog name = true ->
  img <> nilImage -> kind_transform name v img <> nilImage.
Proof.
  intros Hlib Hreg Himg. destruct (Hlib img v Himg) as (Hb & Hc & He).
  unfold kind_transform. unfold registered_catalog in Hreg.
  destruct (String.eqb name "brightness"); [exact Hb|].
  destruct (String.eqb name "contrast"); [exact Hc|].
  destruct (String.eqb name "edge-detection"); [exact He | discriminate].
Qed.

Lemma fold_kind_transform_image {A : Type} (nm : A -> string)
    (val : A -> Go.float64) (l : list A) (img : Image) :
  library_returns_images ->
  forallb (fun a => registered_catalog (nm a)) l = true ->
  img <> nilImage ->
  fold_left (fun i a => kind_transform (nm a) (val a) i) l img <> nilImage.
Proof.
  intros Hlib. revert img. induction l as [|a l IH]; intros img Hall Himg; simpl in *.
  - exact Himg.
  - apply andb_true_iff in Hall as [Ha Hall].
    apply IH; [exact Hall|]. apply kind_transform_image; assumption.
Qed.

Lemma PreviewImg_loop_image (effs : list Main.Effect) (img : Image) :
  library_returns_images -> img <> nilImage ->
  forallb (fun eff => registered (Main.Name eff)) effs = true ->
  exists img', Main.PreviewImg_loop effs img = Done img' /\ img' <> nilImage.
Proof.
  intros Hlib Himg Hall. eexists. split.
  - apply MainFacts.PreviewImg_loop_registered, Hall.
  - apply (fold_kind_transform_image Main.Name Main.Value); [exact Hlib | | exact Himg].
    apply forallb_forall. intros eff Hin.
    apply registered_in_catalog.
    rewrite forallb_forall in Hall. apply Hall, Hin.
Qed.

Lemma catalog_PreviewImg_loop_image (ts : list Catalog.Transformation)
    (img : Image) :
  library_returns_images -> img <> nilImage ->
  Forall well_formed ts ->
  forallb (fun t => registered_catalog (Catalog.Name (Catalog.effect t))) ts = true ->
  exists img', Catalog.PreviewImg_loop ts img = Done img' /\ img' <> nilImage.
Proof.
  intros Hlib Himg Hwf Hall. eexists. split.
  - apply CatalogFacts.catalog_PreviewImg_loop_registered; assumption.
  - apply (fold_kind_transform_image
             (fun t => Catalog.Name (Catalog.effect t))
             (fun t => hd (S754_zero false) (Catalog.Values t)));
      assumption.
Qed.

End WithEnv.

End ImageFacts.

(** C10: [GetEffectFn] returns the nil function exactly for the names it
    does not handle, and [PreviewImg] has no guard.  When every name of the
    pipeline is handled no nil function is called.  On a loaded image, the
    bild calls returning images, [PreviewImg] calls the nil function, and
    panics, exactly when some instance of the pipeline has a name that is
    not handled, and it returns an image exactly when every name is
    handled.  The same holds in the catalog revision for the
    transformations its callbacks build. *)
Theorem preview_nil_call_iff_unregistered `{Env} :
  (forall eff : Main.Effect,
     Main.GetEffectFn eff = None <-> registered (Main.Name eff) = false)
  /\ (forall app : Main.App,
        (forall eff, In eff (Main.effects app) -> registered (Main.Name eff) = true) ->
        Main.PreviewImg app <> Panic NilFuncCall)
  /\ (forall app : Main.App,
        library_returns_images ->
        Main.resizedImg app <> nilImage ->
        (Main.PreviewImg app = Panic NilFuncCall
         <-> exists eff, In eff (Main.effects app)
                         /\ registered (Main.Name eff) = false)
        /\ ((exists img, Main.PreviewImg app = Done img /\ img <> nilImage)
            <-> forall eff, In eff (Main.effects app)
                            -> registered (Main.Name eff) = true))
  /\ (forall (eff : Catalog.Effect) (values : list Go.float64),
        Catalog.GetEffectFn eff values = None
        <-> registered_catalog (Catalog.Name eff) = false)
  /\ (forall app : Catalog.App,
        library_returns_images ->
        Catalog.resizedImg app <> nilImage ->
        Forall well_formed (Catalog.transformations app) ->
        (Catalog.PreviewImg app = Panic NilFuncCall
         <-> exists t, In t (Catalog.transformations app)
                       /\ registered_catalog (Catalog.Name (Catalog.effect t)) = false)).
Proof.
  split; [|split; [|split; [|split]]].
  - intros eff. symmetry. apply MainFacts.GetEffectFn_unregistered.
  - intros app Hall Hpanic. unfold Main.PreviewImg in Hpanic.
    apply MainFacts.PreviewImg_loop_panics in Hpanic.
    apply forallb_false_iff in Hpanic as (eff & Hin & Hreg).
    rewrite (Hall eff Hin) in Hreg. discriminate.
  - intros app Hlib Himg. unfold Main.PreviewImg. split.
    + rewrite MainFacts.PreviewImg_loop_panics. apply forallb_false_iff.
    + rewrite <- forallb_forall. split.
      * intros (img & Hdone & _).
        destruct (forallb (fun eff => registered (Main.Name eff)) (Main.effects app))
          eqn:Hall; [reflexivity|].
        apply MainFacts.PreviewImg_loop_panics with (img := Main.resizedImg app)
          in Hall.
        congruence.
      * intros Hall. apply ImageFacts.PreviewImg_loop_image; assumption.
  - intros eff values. symmetry. apply CatalogFacts.catalog_GetEffectFn_unregistered.
  - intros app Hlib Himg Hwf. unfold Catalog.PreviewImg.
    rewrite (CatalogFacts.catalog_PreviewImg_loop_panics _ _ Hwf). apply forallb_false_iff.
Qed.

Lemma preview_nil_call_iff_unregistered_witness :
  let app := catalog_session [Upload "data:image/png;base64,4x3";
                              AddEffect "contrast"; AddEffect "sepia"] in
  Catalog.PreviewImg app = Panic NilFuncCall
  <-> exists t, In t (Catalog.transformations app)
                /\ registered_catalog (Catalog.Name (Catalog.effect t)) = false.
Proof.
  intros app.
  apply (proj2 (proj2 (proj2 (proj2
           (preview_nil_call_iff_unregistered (H := TermLib.env))))) app).
  - intros img v _. repeat split; discriminate.
  - vm_compute. discriminate.
  - repeat constructor.
Defined.

(** ** Identities of the instances *)

Lemma Itoa_inj (a b : Z) : Go.Itoa a = Go.Itoa b -> a = b.
Proof. apply pretty_Z_inj. Qed.

Lemma catalog_names (n : string) :
  registered_catalog n = true ->
  n = "brightness" \/ n = "contrast" \/ n = "edge-detection".
Proof.
  unfold registered_catalog. intros Hn.
  apply orb_true_iff in Hn as [Hn | Hn]; [apply orb_true_iff in Hn as [Hn | Hn]|];
    apply String.eqb_eq in Hn; auto.
Qed.

(** Ids built from catalog names determine the name and the counter. *)
Lemma catalog_id_inj (n1 n2 : string) (c1 c2 : Z) :
  registered_catalog n1 = true -> registered_catalog n2 = true ->
  n1 +:+ Go.Itoa c1 = n2 +:+ Go.Itoa c2 -> n1 = n2 /\ c1 = c2.
Proof.
  intros H1 H2 Heq.
  apply catalog_names in H1 as [-> | [-> | ->]];
    apply catalog_names in H2 as [-> | [-> | ->]];
    try (simpl in Heq; discriminate Heq);
    (split; [reflexivity|]); apply Itoa_inj; eapply String.app_inj; exact Heq.
Qed.

Lemma int_incr_small (k : Z) : 0 <= k < Go.int_max -> Go.int_incr k = k + 1.
Proof.
  unfold Go.int_incr, Go.int_wrap, Go.int_max. intros Hk.
  rewrite Z.mod_small; lia.
Qed.

Module IdFacts.

Section WithEnv.
Context `{Env}.

Import Catalog.

Lemma Update_loop_ids (ts : list Transformation) (id : string)
    (values : list Go.float64) :
  map Id (Update_loop ts id values) = map Id ts.
Proof.
  induction ts as [|t ts IH]; simpl; [reflexivity|].
  destruct (String.eqb (Id t) id); simpl; congruence.
Qed.

Lemma catalog_load_frame (app : App) (simg : string) :
  transformations (NewSourceImgFromString app simg) = transformations app
  /\ cnt (NewSourceImgFromString app simg) = cnt app.
Proof.
  unfold NewSourceImgFromString.
  destruct (Main.strip_prefix simg) as [payload|]; [|auto].
  destruct (image_Decode payload) as [img [err|]]; simpl; auto.
Qed.

Lemma ids_fresh_NewApp : ids_fresh NewApp.
Proof.
  split; [simpl; lia|]. split; [constructor|]. intros id [].
Qed.

Lemma ids_fresh_AddEffectCallback (app : App) (selected : string) :
  ids_fresh app -> cnt app < Go.int_max -> registered_catalog selected = true ->
  ids_fresh (AddEffectCallback app selected)
  /\ cnt (AddEffectCallback app selected) = cnt app + 1.
Proof.
  intros (Hc & Hnd & Hids) Hmax Hsel.
  assert (Hincr : Go.int_incr (cnt app) = cnt app + 1)
    by (apply int_incr_small; lia).
  unfold AddEffectCallback, Append, ids_fresh. simpl. rewrite Hincr.
  split; [|reflexivity].
  rewrite map_app. simpl. split; [lia|]. split.
  - apply NoDup_app. split; [exact Hnd|]. split.
    + intros id Hin Hnew. apply list_elem_of_In in Hin.
      apply list_elem_of_In in Hnew. destruct Hnew as [<- | []].
      destruct (Hids _ Hin) as (n & c & Heq & Hn & Hrange).
      apply catalog_id_inj in Heq as [_ Heq]; [lia | assumption | assumption].
    + apply NoDup_singleton.
  - intros id Hin. apply in_app_or in Hin as [Hin | [<- | []]].
    + destruct (Hids _ Hin) as (n & c & Heq & Hn & Hrange).
      exists n, c. repeat split; try assumption; lia.
    + exists selected, (cnt app + 1). repeat split; try assumption; lia.
Qed.

Lemma ids_fresh_session (evs : list event) (app : App) :
  ids_fresh app ->
  cnt app + Z.of_nat (length evs) <= Go.int_max ->
  forallb offered evs = true ->
  ids_fresh (fold_left catalog_handle evs app).
Proof.
  revert app. induction evs as [|ev evs IH]; intros app Hfresh Hlen Hoff.
  - exact Hfresh.
  - simpl in Hoff. apply andb_true_iff in Hoff as [Hev Hoff].
    simpl fold_left. simpl length in Hlen.
    destruct ev as [dataURL | selected | id v]; simpl catalog_handle.
    + destruct (catalog_load_frame app dataURL) as [Hts Hcnt].
      apply IH; [| unfold UploadCallback; rewrite Hcnt; lia | exact Hoff].
      unfold ids_fresh, UploadCallback. rewrite Hts, Hcnt. exact Hfresh.
    + destruct (ids_fresh_AddEffectCallback app selected Hfresh) as [Hf Hcnt];
        [lia | exact Hev |].
      apply IH; [exact Hf | rewrite Hcnt; lia | exact Hoff].
    + apply IH; [| simpl; lia | exact Hoff].
      unfold ids_fresh, ChangeEffectsCallback, Update. simpl.
      rewrite Update_loop_ids. exact Hfresh.
Qed.

(** In the catalog revision the ids of a session are pairwise distinct:
    the counter read is the one incremented. *)
Lemma catalog_session_ids_distinct (evs : list event) :
  Z.of_nat (length evs) <= Go.int_max ->
  forallb offered evs = true ->
  NoDup (map Id (transformations (catalog_session evs))).
Proof.
  intros Hlen Hoff.
  apply (ids_fresh_session evs NewApp ids_fresh_NewApp); [simpl; lia | exact Hoff].
Qed.

End WithEnv.

End IdFacts.

(** In a session of [main.go] the counter read by [AddEffectCallback]
    stays 0, so every id is the name followed by ["0"]. *)
Lemma session_ids_end_in_0 `{Env} (evs : list event) :
  Main.cnt (Main.app_arg (session evs)) = 0
  /\ Forall (fun eff => Main.Id eff = Main.Name eff +:+ "0")
       (Main.effects (Main.embedded (session evs))).
Proof.
  unfold session.
  assert (Hgen : forall jsa,
            Main.cnt (Main.app_arg jsa) = 0 ->
            Forall (fun eff => Main.Id eff = Main.Name eff +:+ "0")
              (Main.effects (Main.embedded jsa)) ->
            Main.cnt (Main.app_arg (fold_left handle evs jsa)) = 0
            /\ Forall (fun eff => Main.Id eff = Main.Name eff +:+ "0")
                 (Main.effects (Main.embedded (fold_left handle evs jsa)))).
  { induction evs as [|ev evs IH]; intros jsa Hc Hall; [auto|].
    simpl fold_left. apply IH.
    - destruct ev; exact Hc.
    - destruct ev as [dataURL | selected | id v]; simpl.
      + destruct (NewSourceImgFromString_frame (Main.embedded jsa) dataURL)
          as [-> _]. exact Hall.
      + apply Forall_app. split; [exact Hall|].
        constructor; [|constructor]. simpl. rewrite Hc. reflexivity.
      + clear Hc. induction Hall as [|e l He Hl IHl]; simpl; [constructor|].
        destruct (String.eqb (Main.Id e) id); constructor; auto. }
  apply Hgen; [reflexivity | constructor].
Qed.

(** C8 fails in [main.go]: [AddEffectCallback] increments [jsa.cnt] but
    builds the id from [app.cnt], the counter of the argument of
    [NewJsApp], which stays 0.  Adding contrast twice issues the id
    ["contrast0"] twice; the sibling listener and the catalog revision,
    which read the counter they increment, issue ["contrast1"] and
    ["contrast2"]. *)
Theorem add_effect_reuses_id :
  let ids := map Main.Id
               (Main.effects
                  (Main.embedded (session [AddEffect "contrast"; AddEffect "contrast"]))) in
  ids = ["contrast0"; "contrast0"]
  /\ ~ NoDup ids
  /\ map Main.Id
       (Main.effects
          (Main.addEffectBtnClickListener
             (Main.addEffectBtnClickListener Main.NewApp "contrast") "contrast"))
     = ["contrast1"; "contrast2"]
  /\ map Catalog.Id
       (Catalog.transformations
          (catalog_session [AddEffect "contrast"; AddEffect "contrast"]))
     = ["contrast1"; "contrast2"].
Proof.
  split; [reflexivity|]. split; [|split; reflexivity].
  intros Hnd. apply NoDup_cons in Hnd as [Hnotin _]. apply Hnotin. left.
Qed.

(** ** float64 arithmetic on image dimensions

    The preview height goes through two rounded operations, a division and
    a product.  Each result lies within one unit in the last place of the
    exact value; for the dimensions of an image that is enough to place the
    ceiling of the product. *)

Module FloatFacts.

Lemma digits2_pos_size (p : positive) : digits2_pos p = Pos.size p.
Proof. induction p; simpl; congruence. Qed.

Lemma Zdigits2_log2 (p : positive) : Zdigits2 (Z.pos p) = Z.log2 (Z.pos p) + 1.
Proof.
  simpl. rewrite digits2_pos_size. destruct p; simpl; lia.
Qed.

Lemma Zdigits2_bounds (p : positive) :
  2 ^ (Zdigits2 (Z.pos p) - 1) <= Z.pos p < 2 ^ Zdigits2 (Z.pos p).
Proof.
  rewrite Zdigits2_log2.
  replace (Z.log2 (Z.pos p) + 1 - 1) with (Z.log2 (Z.pos p)) by lia.
  replace (Z.log2 (Z.pos p) + 1) with (Z.succ (Z.log2 (Z.pos p))) by lia.
  apply Z.log2_spec. lia.
Qed.

Lemma Zdigits2_unique (p : positive) (d : Z) :
  2 ^ (d - 1) <= Z.pos p < 2 ^ d -> Zdigits2 (Z.pos p) = d.
Proof.
  intros Hb. rewrite Zdigits2_log2.
  assert (0 < d).
  { destruct (Z_lt_le_dec 0 d) as [|Hd]; [assumption|].
    exfalso. destruct Hb as [_ Hb].
    assert (2 ^ d <= 1).
    { destruct (Z.eq_dec d 0) as [->|]; [simpl; lia|].
      rewrite Z.pow_neg_r by lia. lia. }
    lia. }
  rewrite (Z.log2_unique (Z.pos p) (d - 1)); try lia.
  replace (Z.succ (d - 1)) with d by lia. exact Hb.
Qed.

Lemma iter_pos_nat {A : Type} (f : A -> A) (n : positive) (x : A) :
  SpecFloat.iter_pos f n x = Nat.iter (Pos.to_nat n) f x.
Proof.
  revert x. induction n as [n IH | n IH |]; intros x.
  - change (SpecFloat.iter_pos f n~1 x)
      with (SpecFloat.iter_pos f n (SpecFloat.iter_pos f n (f x))).
    rewrite !IH, Pos2Nat.inj_xI, Nat.iter_succ_r.
    replace (2 * Pos.to_nat n)%nat with (Pos.to_nat n + Pos.to_nat n)%nat by lia.
    rewrite Nat.iter_add. reflexivity.
  - change (SpecFloat.iter_pos f n~0 x)
      with (SpecFloat.iter_pos f n (SpecFloat.iter_pos f n x)).
    rewrite !IH, Pos2Nat.inj_xO.
    replace (2 * Pos.to_nat n)%nat with (Pos.to_nat n + Pos.to_nat n)%nat by lia.
    rewrite Nat.iter_add. reflexivity.
  - reflexivity.
Qed.

Lemma shr_1_m (mrs : shr_record) :
  0 <= shr_m mrs -> shr_m (shr_1 mrs) = shr_m mrs / 2.
Proof.
  destruct mrs as [m r s]. simpl. intros Hm.
  destruct m as [|p|p]; [reflexivity | | lia].
  destruct p as [p|p|]; simpl.
  - rewrite Pos2Z.inj_xI. apply Z.div_unique with (r := 1); lia.
  - rewrite Pos2Z.inj_xO. apply Z.div_unique with (r := 0); lia.
  - reflexivity.
Qed.

Lemma shr_iter_m (k : nat) (mrs : shr_record) :
  0 <= shr_m mrs ->
  shr_m (Nat.iter k shr_1 mrs) = shr_m mrs / 2 ^ Z.of_nat k.
Proof.
  intros Hm. induction k as [|k IH].
  - simpl. rewrite Z.div_1_r. reflexivity.
  - rewrite Nat2Z.inj_succ, Z.pow_succ_r by lia. simpl Nat.iter.
    rewrite shr_1_m.
    + rewrite IH. rewrite Z.div_div by lia. f_equal. lia.
    + rewrite IH. apply Z.div_pos; lia.
Qed.

Lemma shr_spec (mrs : shr_record) (e n : Z) :
  0 <= shr_m mrs ->
  shr_m (fst (shr mrs e n)) = shr_m mrs / 2 ^ Z.max 0 n
  /\ snd (shr mrs e n) = e + Z.max 0 n.
Proof.
  intros Hm. destruct n as [|p|p]; simpl.
  - rewrite Z.div_1_r. split; lia.
  - rewrite iter_pos_nat, shr_iter_m by assumption.
    rewrite positive_nat_Z. split; reflexivity.
  - rewrite Z.div_1_r. split; lia.
Qed.

Lemma round_nearest_even_cases (m : Z) (l : location) :
  round_nearest_even m l = m \/ round_nearest_even m l = m + 1.
Proof.
  destruct l as [|[ | | ]]; simpl; auto.
  destruct (Z.even m); auto.
Qed.

Lemma shr_record_of_loc_m (m : Z) (l : location) : shr_m (shr_record_of_loc m l) = m.
Proof. destruct l as [|[ | | ]]; reflexivity. Qed.

Lemma fexp_normal (x : Z) : -1074 <= x - 53 -> fexp 53 1024 x = x - 53.
Proof. unfold fexp, emin. lia. Qed.

Lemma shr_fexp_spec (m e : Z) (l : location) (d : Z) :
  0 < m -> Zdigits2 m = d -> 53 <= d -> -1074 <= d + e - 53 ->
  shr_m (fst (shr_fexp 53 1024 m e l)) = m / 2 ^ (d - 53)
  /\ snd (shr_fexp 53 1024 m e l) = e + (d - 53).
Proof.
  intros Hm Hd Hd53 Hmin. unfold shr_fexp. rewrite Hd, fexp_normal by lia.
  replace (d + e - 53 - e) with (d - 53) by lia.
  destruct (shr_spec (shr_record_of_loc m l) e (d - 53)) as [H1 H2].
  { rewrite shr_record_of_loc_m. lia. }
  rewrite H1, H2, shr_record_of_loc_m.
  replace (Z.max 0 (d - 53)) with (d - 53) by lia. split; reflexivity.
Qed.

Lemma binary_round_aux_bounds (s : bool) (mx : positive) (e : Z) (l : location)
    (d : Z) :
  Zdigits2 (Z.pos mx) = d -> 53 <= d -> -1074 <= d + e - 53 -> e + d - 52 <= 971 ->
  exists (m3 : positive) (k : Z),
    binary_round_aux 53 1024 s (Z.pos mx) e l = S754_finite s m3 (e + k)
    /\ d - 53 <= k <= d - 52
    /\ 2 ^ 52 <= Z.pos m3 < 2 ^ 53
    /\ (Z.pos m3 - 1) * 2 ^ k <= Z.pos mx
    /\ Z.pos mx + 1 <= (Z.pos m3 + 1) * 2 ^ k.
Proof.
  intros Hd Hd53 Hmin Hmax.
  pose proof (Zdigits2_bounds mx) as Hb. rewrite Hd in Hb.
  set (n := d - 53) in *.
  assert (Hn : 0 <= n) by (unfold n; lia).
  assert (Hpn : 0 < 2 ^ n) by (apply Z.pow_pos_nonneg; lia).
  set (m1 := Z.pos mx / 2 ^ n).
  assert (Hdn : 2 ^ (d - 1) = 2 ^ n * 2 ^ 52).
  { rewrite <- Z.pow_add_r by lia. f_equal. unfold n. lia. }
  assert (Hdn' : 2 ^ d = 2 ^ n * 2 ^ 53).
  { rewrite <- Z.pow_add_r by lia. f_equal. unfold n. lia. }
  assert (Hm1 : 2 ^ 52 <= m1 < 2 ^ 53).
  { unfold m1. split.
    - apply Z.div_le_lower_bound; lia.
    - apply Z.div_lt_upper_bound; lia. }
  assert (Hm1lo : m1 * 2 ^ n <= Z.pos mx).
  { unfold m1. rewrite Z.mul_comm. apply Z.mul_div_le. lia. }
  assert (Hm1hi : Z.pos mx + 1 <= (m1 + 1) * 2 ^ n).
  { unfold m1. pose proof (Z.mul_succ_div_gt (Z.pos mx) (2 ^ n) Hpn). lia. }
  unfold binary_round_aux.
  destruct (shr_fexp_spec (Z.pos mx) e l d) as [E1m E1e]; try lia; try assumption.
  destruct (shr_fexp 53 1024 (Z.pos mx) e l) as [mrs' e'] eqn:E1.
  cbn [fst snd] in E1m, E1e. fold n in E1m, E1e. fold m1 in E1m.
  set (m2 := round_nearest_even (shr_m mrs') (loc_of_shr_record mrs')).
  assert (Hm2 : m2 = m1 \/ m2 = m1 + 1).
  { unfold m2. rewrite E1m. apply round_nearest_even_cases. }
  destruct (Z_lt_le_dec m2 (2 ^ 53)) as [Hlt | Hge].
  - (* no carry *)
    assert (Hp2 : exists p2, m2 = Z.pos p2).
    { destruct m2 as [|p2|p2]; [lia | eauto | lia]. }
    destruct Hp2 as [p2 Hp2].
    assert (Hd2 : Zdigits2 m2 = 53).
    { rewrite Hp2. apply Zdigits2_unique. rewrite <- Hp2. simpl Z.sub. lia. }
    destruct (shr_fexp_spec m2 e' loc_Exact 53) as [E2m E2e]; try lia.
    destruct (shr_fexp 53 1024 m2 e' loc_Exact) as [mrs'' e''] eqn:E2.
    cbn [fst snd] in E2m, E2e. rewrite Z.sub_diag, Z.pow_0_r, Z.div_1_r in E2m.
    rewrite E2m, Hp2.
    replace (e'' <=? 1024 - 53) with true by (symmetry; apply Z.leb_le; lia).
    exists p2, n. rewrite <- Hp2.
    split; [f_equal; lia|]. split; [unfold n; lia|]. split; [lia|].
    split; [nia | nia].
  - (* the mantissa carries into the next binade *)
    assert (Hm2eq : m2 = 2 ^ 53) by lia.
    assert (Hd2 : Zdigits2 m2 = 54).
    { rewrite Hm2eq. reflexivity. }
    destruct (shr_fexp_spec m2 e' loc_Exact 54) as [E2m E2e]; try lia.
    destruct (shr_fexp 53 1024 m2 e' loc_Exact) as [mrs'' e''] eqn:E2.
    cbn [fst snd] in E2m, E2e. rewrite Hm2eq in E2m.
    change (2 ^ 53 / 2 ^ (54 - 53)) with (Z.pos (2 ^ 52)) in E2m.
    rewrite E2m.
    replace (e'' <=? 1024 - 53) with true by (symmetry; apply Z.leb_le; lia).
    exists (2 ^ 52)%positive, (n + 1).
    split; [f_equal; lia|]. split; [unfold n; lia|].
    split; [split; [reflexivity | reflexivity]|].
    rewrite Z.pow_add_r by lia. change (2 ^ 1) with 2.
    change (Z.pos (2 ^ 52)) with (2 ^ 52).
    split; nia.
Qed.

Lemma Pos_iter_xO (p k : positive) :
  Z.pos (Pos.iter xO p k) = Z.pos p * 2 ^ Z.pos k.
Proof.
  induction k as [|k IH] using Pos.peano_ind.
  - simpl. lia.
  - rewrite Pos.iter_succ, Pos2Z.inj_xO, IH, Pos2Z.inj_succ, Z.pow_succ_r by lia.
    lia.
Qed.

Lemma binary_round_aux_exact (s : bool) (m : positive) (e : Z) :
  Zdigits2 (Z.pos m) = 53 -> -1074 <= e <= 971 ->
  binary_round_aux 53 1024 s (Z.pos m) e loc_Exact = S754_finite s m e.
Proof.
  intros Hd He. unfold binary_round_aux.
  assert (Hshr : shr_fexp 53 1024 (Z.pos m) e loc_Exact
                 = ({| shr_m := Z.pos m; shr_r := false; shr_s := false |}, e)).
  { unfold shr_fexp. rewrite Hd, fexp_normal by lia.
    replace (53 + e - 53 - e) with 0 by lia. reflexivity. }
  rewrite Hshr. cbn [shr_m loc_of_shr_record round_nearest_even].
  rewrite Hshr. cbn [shr_m].
  replace (e <=? 1024 - 53) with true by (symmetry; apply Z.leb_le; lia).
  reflexivity.
Qed.

(** An integer below 2^53 converts exactly. *)
Lemma binary_normalize_exact (n : Z) (s : bool) :
  0 < n < 2 ^ 53 ->
  exists (m : positive) (e : Z),
    binary_normalize 53 1024 n 0 s = S754_finite false m e
    /\ -52 <= e <= 0
    /\ e = Zdigits2 n - 53
    /\ Z.pos m = n * 2 ^ (- e)
    /\ 2 ^ 52 <= Z.pos m < 2 ^ 53.
Proof.
  intros Hn. destruct n as [|p|p]; try lia.
  pose proof (Zdigits2_bounds p) as Hb.
  set (d := Zdigits2 (Z.pos p)) in *.
  assert (Hd : 1 <= d <= 53).
  { split.
    - unfold d. simpl. lia.
    - destruct (Z_lt_le_dec 53 d) as [Hgt|]; [|assumption].
      exfalso. assert (2 ^ 53 <= 2 ^ (d - 1)) by (apply Z.pow_le_mono_r; lia). lia. }
  unfold binary_normalize, binary_round, shl_align.
  change (Z.pos (digits2_pos p)) with d.
  rewrite Z.add_0_r, fexp_normal by lia. rewrite Z.sub_0_r.
  destruct (d - 53) as [|q|q] eqn:Hq; try lia.
  - (* 53 digits already *)
    exists p, 0. rewrite binary_round_aux_exact by (fold d; lia).
    split; [reflexivity|]. split; [lia|]. split; [lia|].
    split; [simpl; lia|]. replace (d - 1) with 52 in Hb by lia.
    replace d with 53 in Hb by lia. exact Hb.
  - (* shift the mantissa left *)
    assert (Hpq : Z.pos q = 53 - d) by lia.
    assert (Hm : Z.pos (Pos.iter xO p q) = Z.pos p * 2 ^ (53 - d)).
    { rewrite Pos_iter_xO, Hpq. reflexivity. }
    assert (Hpow : 2 ^ (d - 1) * 2 ^ (53 - d) = 2 ^ 52).
    { rewrite <- Z.pow_add_r by lia. f_equal. lia. }
    assert (Hpow' : 2 ^ d * 2 ^ (53 - d) = 2 ^ 53).
    { rewrite <- Z.pow_add_r by lia. f_equal. lia. }
    assert (Hpos : 0 < 2 ^ (53 - d)) by (apply Z.pow_pos_nonneg; lia).
    assert (Hrange : 2 ^ 52 <= Z.pos (Pos.iter xO p q) < 2 ^ 53).
    { rewrite Hm. split; nia. }
    exists (Pos.iter xO p q), (Z.neg q).
    rewrite binary_round_aux_exact.
    + split; [reflexivity|]. split; [lia|]. split; [lia|].
      split; [|exact Hrange]. rewrite Hm. f_equal. f_equal. lia.
    + apply Zdigits2_unique. exact Hrange.
    + lia.
Qed.

Lemma SFdiv_bounds (mh mw : positive) (eh ew : Z) :
  2 ^ 52 <= Z.pos mh < 2 ^ 53 -> 2 ^ 52 <= Z.pos mw < 2 ^ 53 ->
  -52 <= eh <= 0 -> -52 <= ew <= 0 ->
  exists (m3 : positive) (k : Z),
    SFdiv 53 1024 (S754_finite false mh eh) (S754_finite false mw ew)
    = S754_finite false m3 (eh - ew - 53 + k)
    /\ 0 <= k <= 2
    /\ 2 ^ 52 <= Z.pos m3 < 2 ^ 53
    /\ (Z.pos m3 - 1) * 2 ^ k * Z.pos mw <= Z.pos mh * 2 ^ 53
    /\ Z.pos mh * 2 ^ 53 < (Z.pos m3 + 1) * 2 ^ k * Z.pos mw.
Proof.
  intros Hmh Hmw Heh Hew.
  unfold SFdiv, SFdiv_core_binary.
  rewrite (Zdigits2_unique mh 53), (Zdigits2_unique mw 53) by assumption.
  replace (53 + eh - (53 + ew)) with (eh - ew) by lia.
  rewrite fexp_normal by lia.
  replace (Z.min (eh - ew - 53) (eh - ew)) with (eh - ew - 53) by lia.
  replace (eh - ew - (eh - ew - 53)) with 53 by lia.
  cbv beta iota zeta.
  rewrite Z.shiftl_mul_pow2 by lia.
  pose proof (Z_div_mod (Z.pos mh * 2 ^ 53) (Z.pos mw) ltac:(lia)) as Hdiv.
  destruct (Z.div_eucl (Z.pos mh * 2 ^ 53) (Z.pos mw)) as [q r].
  destruct Hdiv as [Hq Hr].
  assert (Hqlo : 2 ^ 52 <= q).
  { destruct (Z_lt_le_dec q (2 ^ 52)) as [Hlt|]; [|assumption]. exfalso.
    assert ((q + 1) * Z.pos mw <= 2 ^ 52 * Z.pos mw)
      by (apply Z.mul_le_mono_nonneg_r; lia).
    assert (2 ^ 52 * Z.pos mw < 2 ^ 52 * 2 ^ 53)
      by (apply Z.mul_lt_mono_pos_l; lia).
    assert (2 ^ 52 * 2 ^ 53 <= Z.pos mh * 2 ^ 53)
      by (apply Z.mul_le_mono_nonneg_r; lia).
    lia. }
  assert (Hqhi : q < 2 ^ 54).
  { destruct (Z_lt_le_dec q (2 ^ 54)) as [|Hge]; [assumption|]. exfalso.
    assert (2 ^ 54 * 2 ^ 52 <= q * Z.pos mw)
      by (apply Z.mul_le_mono_nonneg; lia).
    assert (Z.pos mh * 2 ^ 53 < 2 ^ 53 * 2 ^ 53)
      by (apply Z.mul_lt_mono_pos_r; lia).
    change (2 ^ 54 * 2 ^ 52) with (2 ^ 53 * 2 ^ 53) in *. lia. }
  destruct q as [|pq|pq]; try lia.
  set (d := Zdigits2 (Z.pos pq)).
  pose proof (Zdigits2_bounds pq) as Hb. fold d in Hb.
  assert (Hd : 53 <= d <= 54).
  { split.
    - destruct (Z_lt_le_dec d 53) as [Hlt|]; [|assumption]. exfalso.
      assert (2 ^ d <= 2 ^ 52) by (apply Z.pow_le_mono_r; lia). lia.
    - destruct (Z_lt_le_dec 54 d) as [Hgt|]; [|assumption]. exfalso.
      assert (2 ^ 54 <= 2 ^ (d - 1)) by (apply Z.pow_le_mono_r; lia). lia. }
  destruct (binary_round_aux_bounds false pq (eh - ew - 53)
              (new_location (Z.pos mw) r) d eq_refl)
    as (m3 & k & Heq & Hk & Hm3 & Hlo & Hhi); try lia.
  exists m3, k. simpl xorb. rewrite Heq.
  split; [reflexivity|]. split; [lia|]. split; [exact Hm3|].
  assert (0 < 2 ^ k) by (apply Z.pow_pos_nonneg; lia).
  split.
  - apply Z.le_trans with (Z.pos pq * Z.pos mw); [|lia].
    apply Z.mul_le_mono_nonneg_r; lia.
  - apply Z.lt_le_trans with ((Z.pos pq + 1) * Z.pos mw); [lia|].
    apply Z.mul_le_mono_nonneg_r; lia.
Qed.

Lemma SFmul_bounds (m3 mc : positive) (e3 ec : Z) :
  2 ^ 52 <= Z.pos m3 < 2 ^ 53 -> 2 ^ 52 <= Z.pos mc < 2 ^ 53 ->
  -200 <= e3 + ec <= 200 ->
  exists (m5 : positive) (k : Z),
    SFmul 53 1024 (S754_finite false m3 e3) (S754_finite false mc ec)
    = S754_finite false m5 (e3 + ec + k)
    /\ 52 <= k <= 54
    /\ 2 ^ 52 <= Z.pos m5 < 2 ^ 53
    /\ (Z.pos m5 - 1) * 2 ^ k <= Z.pos m3 * Z.pos mc
    /\ Z.pos m3 * Z.pos mc + 1 <= (Z.pos m5 + 1) * 2 ^ k.
Proof.
  intros Hm3 Hmc He. unfold SFmul. simpl xorb.
  set (d := Zdigits2 (Z.pos (m3 * mc))).
  pose proof (Zdigits2_bounds (m3 * mc)) as Hb. fold d in Hb.
  rewrite Pos2Z.inj_mul in Hb.
  assert (Hlo : 2 ^ 52 * 2 ^ 52 <= Z.pos m3 * Z.pos mc)
    by (apply Z.mul_le_mono_nonneg; lia).
  assert (Hhi : Z.pos m3 * Z.pos mc < 2 ^ 53 * 2 ^ 53)
    by (apply Z.mul_lt_mono_nonneg; lia).
  assert (Hd : 105 <= d <= 106).
  { split.
    - destruct (Z_lt_le_dec d 105) as [Hlt|]; [|assumption]. exfalso.
      assert (2 ^ d <= 2 ^ 104) by (apply Z.pow_le_mono_r; lia).
      change (2 ^ 52 * 2 ^ 52) with (2 ^ 104) in Hlo. lia.
    - destruct (Z_lt_le_dec 106 d) as [Hgt|]; [|assumption]. exfalso.
      assert (2 ^ 106 <= 2 ^ (d - 1)) by (apply Z.pow_le_mono_r; lia).
      change (2 ^ 53 * 2 ^ 53) with (2 ^ 106) in Hhi. lia. }
  destruct (binary_round_aux_bounds false (m3 * mc) (e3 + ec) loc_Exact d eq_refl)
    as (m5 & k & Heq & Hk & Hm5 & Hlo5 & Hhi5); try lia.
  exists m5, k. rewrite Heq. rewrite Pos2Z.inj_mul in Hlo5, Hhi5.
  split; [reflexivity|]. split; [lia|]. split; [exact Hm5|]. split; assumption.
Qed.

(** The integer core of the error analysis: [m3] and [m5] are the
    mantissas of the quotient and of the product, [K] and [K'] the powers
    of two of the two roundings, [U] the unit of the product. *)
Lemma height_arith (h w E m3 m5 mh mw A B K K' U : Z) :
  1 <= w -> 1 <= h ->
  mh = h * A -> mw = w * B -> 2 ^ 21 <= A -> 1 <= B -> mw < 2 ^ 53 ->
  1 <= K <= 4 -> 1 <= K' <= 2 ^ 54 ->
  (m3 - 1) * K * mw <= mh * 2 ^ 53 ->
  mh * 2 ^ 53 < (m3 + 1) * K * mw ->
  (m5 - 1) * K' <= m3 * (200 * 2 ^ 45) ->
  m3 * (200 * 2 ^ 45) + 1 <= (m5 + 1) * K' ->
  0 < U -> U * B * K * K' = 2 ^ 98 * A ->
  (E - 1) * w < 200 * h <= E * w ->
  (E - 1) * U < m5
  /\ m5 <= (E + 1) * U
  /\ (200 * h <= E * w - 1 -> m5 <= E * U).
Proof.
  intros Hw Hh Hmh Hmw HA HB Hmw53 HK HK' Hd1 Hd2 He1 He2 HU HUid HE.
  set (mc := 200 * 2 ^ 45) in *.
  set (KM := K * mw).
  assert (HKM : 0 < KM) by (unfold KM; nia).
  set (Err := (mc + K') * KM).
  set (M := m5 * K' * KM).
  set (X := mc * (mh * 2 ^ 53)).
  (* the product against the exact quotient *)
  assert (Hd1' : m3 * KM <= mh * 2 ^ 53 + KM) by (unfold KM; nia).
  assert (Hd2' : mh * 2 ^ 53 - KM < m3 * KM) by (unfold KM; nia).
  assert (He1' : m5 * K' <= m3 * mc + K') by nia.
  assert (He2' : m3 * mc + 1 - K' <= m5 * K') by nia.
  assert (Hmc : 0 < mc) by (unfold mc; lia).
  assert (Hhi : M <= X + Err).
  { unfold M, X, Err.
    apply Z.le_trans with ((m3 * mc + K') * KM).
    - apply Z.mul_le_mono_nonneg_r; lia.
    - assert (mc * (m3 * KM) <= mc * (mh * 2 ^ 53 + KM))
        by (apply Z.mul_le_mono_nonneg_l; lia).
      nia. }
  assert (Hlo : X - Err < M).
  { unfold M, X, Err.
    apply Z.lt_le_trans with ((m3 * mc + 1 - K') * KM).
    - assert (mc * (mh * 2 ^ 53 - KM) < mc * (m3 * KM))
        by (apply Z.mul_lt_mono_pos_l; lia).
      nia.
    - apply Z.mul_le_mono_nonneg_r; lia. }
  (* the exact quotient, scaled *)
  set (Sc := 2 ^ 98 * A).
  assert (HS : 0 < Sc) by (unfold Sc; lia).
  assert (HX : X = 200 * h * Sc).
  { unfold X, Sc, mc. rewrite Hmh.
    change (2 ^ 98) with (2 ^ 45 * 2 ^ 53). ring. }
  (* the error is below one unit of the quotient *)
  assert (HErr : Err <= Sc).
  { unfold Err, Sc.
    assert (mc + K' <= 2 ^ 55) by (unfold mc; lia).
    assert (KM <= 4 * 2 ^ 53).
    { unfold KM. apply Z.le_trans with (4 * mw); [|lia].
      apply Z.mul_le_mono_nonneg_r; lia. }
    apply Z.le_trans with (2 ^ 55 * (4 * 2 ^ 53)).
    - apply Z.mul_le_mono_nonneg; lia.
    - change (2 ^ 55 * (4 * 2 ^ 53)) with (2 ^ 98 * 2 ^ 12).
      apply Z.mul_le_mono_nonneg_l; lia. }
  (* back to the unit of the product *)
  set (G := B * K * K' * w).
  assert (HG : 0 < G) by (unfold G; nia).
  assert (HUG : U * G = Sc * w) by (unfold G, Sc; rewrite <- HUid; ring).
  assert (HMG : m5 * G = M) by (unfold G, M, KM; rewrite Hmw; ring).
  assert (HSw : Sc * 1 <= Sc * w) by (apply Z.mul_le_mono_nonneg_l; lia).
  assert (HE1 : ((E - 1) * w + 1) * Sc <= 200 * h * Sc)
    by (apply Z.mul_le_mono_nonneg_r; lia).
  assert (HE2 : 200 * h * Sc <= E * w * Sc)
    by (apply Z.mul_le_mono_nonneg_r; lia).
  split; [|split].
  - apply Z.mul_lt_mono_pos_r with (p := G); [exact HG|].
    rewrite HMG. replace ((E - 1) * U * G) with ((E - 1) * (U * G)) by ring.
    rewrite HUG. lia.
  - apply Z.mul_le_mono_pos_r with (p := G); [exact HG|].
    rewrite HMG. replace ((E + 1) * U * G) with ((E + 1) * (U * G)) by ring.
    rewrite HUG. lia.
  - intros Hnd.
    assert (HE3 : (200 * h + 1) * Sc <= E * w * Sc)
      by (apply Z.mul_le_mono_nonneg_r; lia).
    apply Z.mul_le_mono_pos_r with (p := G); [exact HG|].
    rewrite HMG. replace (E * U * G) with (E * (U * G)) by ring.
    rewrite HUG. lia.
Qed.

Lemma ceil_div_spec (a b : Z) :
  0 < b -> (ceil_div a b - 1) * b < a <= ceil_div a b * b.
Proof.
  intros Hb. unfold ceil_div.
  pose proof (Z_div_mod_eq_full (- a) b) as Heq.
  pose proof (Z.mod_pos_bound (- a) b Hb) as Hr.
  nia.
Qed.

Lemma ceil_div_not_multiple (a b : Z) :
  0 < b -> a mod b <> 0 -> a <= ceil_div a b * b - 1.
Proof.
  intros Hb Hnd. unfold ceil_div.
  pose proof (Z_div_mod_eq_full (- a) b) as Heq.
  pose proof (Z.mod_pos_bound (- a) b Hb) as Hr.
  assert ((- a) mod b <> 0).
  { intros H0. apply Hnd. apply Z.mod_opp_l_z in H0; [|lia].
    rewrite Z.opp_involutive in H0. exact H0. }
  nia.
Qed.

(** [Zceil_float] of a positive float with a negative exponent is the
    least integer [c] with [m <= c * 2^(-e)]. *)
Lemma Zceil_float_spec (m : positive) (e : Z) :
  e < 0 ->
  let c := Go.Zceil_float (S754_finite false m e) in
  (c - 1) * 2 ^ (- e) < Z.pos m <= c * 2 ^ (- e).
Proof.
  intros He. simpl. replace (0 <=? e) with false by (symmetry; apply Z.leb_gt; lia).
  apply (ceil_div_spec (Z.pos m) (2 ^ (- e))). apply Z.pow_pos_nonneg; lia.
Qed.

Lemma int_of_Ceil (unspec : Go.float64 -> Z) (m : positive) (e : Z) :
  0 < Go.Zceil_float (S754_finite false m e) < 2 ^ 53 ->
  Go.int_of_float64 unspec (Go.Ceil (S754_finite false m e))
  = Go.Zceil_float (S754_finite false m e).
Proof.
  intros Hc. unfold Go.Ceil.
  set (c := Go.Zceil_float (S754_finite false m e)) in *.
  destruct (binary_normalize_exact c false Hc) as (m' & e' & Heq & He' & _ & Hm' & _).
  unfold Go.prec, Go.emax. rewrite Heq.
  assert (Htr : Go.Ztrunc_float (S754_finite false m' e') = c).
  { unfold Go.Ztrunc_float. rewrite Hm'.
    destruct (0 <=? e') eqn:E.
    - apply Z.leb_le in E. replace e' with 0 by lia. simpl. lia.
    - apply Z.div_mul. apply Z.pow_nonzero; lia. }
  unfold Go.int_of_float64. rewrite Htr. simpl Go.is_finite.
  replace (Go.int_in_range c) with true; [reflexivity|].
  symmetry. unfold Go.int_in_range, Go.int_min, Go.int_max.
  apply andb_true_iff. split; apply Z.leb_le; lia.
Qed.

Lemma float64_200 :
  binary_normalize 53 1024 200 0 false = S754_finite false (200 * 2 ^ 45) (-45).
Proof. reflexivity. Qed.

Lemma pow2_cancel_lt (a b u : Z) : 0 < u -> a * u < b * u -> a < b.
Proof. intros Hu H. apply Z.mul_lt_mono_pos_r with (p := u); assumption. Qed.

Theorem dstHeight_of_ceiling `{Env} (w h : Z) :
  0 < w < 2 ^ 53 -> 0 <= h < 2 ^ 32 ->
  ceil_div (200 * h) w <= dstHeight_of w h 200 <= ceil_div (200 * h) w + 1
  /\ ((200 * h) mod w <> 0 -> dstHeight_of w h 200 = ceil_div (200 * h) w).
Proof.
  intros Hw Hh.
  unfold dstHeight_of, ratio_of, Go.fmul, Go.fdiv, Go.float64_of_int, Go.prec, Go.emax.
  rewrite float64_200.
  destruct (binary_normalize_exact w false Hw) as (mw & ew & Heqw & Hew & _ & Hmw & Hmwr).
  rewrite Heqw.
  destruct (Z.eq_dec h 0) as [-> | Hh0].
  - (* a source of height 0 *)
    simpl. unfold ceil_div. rewrite Z.div_0_l by lia.
    change (Go.int_of_float64 int_of_unrepresentable (S754_zero false)) with 0.
    split; [lia | reflexivity].
  - assert (Hhpos : 0 < h < 2 ^ 53) by lia.
    destruct (binary_normalize_exact h false Hhpos)
      as (mh & eh & Heqh & Heh & _ & Hmh & Hmhr).
    rewrite Heqh.
    assert (Heh21 : 21 <= - eh).
    { destruct (Z_lt_le_dec (- eh) 21) as [Hlt|]; [|assumption]. exfalso.
      assert (2 ^ (- eh) <= 2 ^ 20) by (apply Z.pow_le_mono_r; lia).
      assert (h * 2 ^ (- eh) <= h * 2 ^ 20)
        by (apply Z.mul_le_mono_nonneg_l; lia).
      lia. }
    destruct (SFdiv_bounds mh mw eh ew Hmhr Hmwr) as
      (m3 & k & Heq3 & Hk & Hm3 & Hd1 & Hd2); try lia.
    rewrite Heq3.
    assert (Hmc : 2 ^ 52 <= Z.pos (200 * 2 ^ 45) < 2 ^ 53)
      by (vm_compute; split; [discriminate | reflexivity]).
    destruct (SFmul_bounds m3 (200 * 2 ^ 45) (eh - ew - 53 + k) (-45) Hm3 Hmc)
      as (m5 & k' & Heq5 & Hk' & Hm5 & He1 & He2); [lia|].
    rewrite Heq5.
    set (e5 := eh - ew - 53 + k + -45 + k') in *.
    assert (He5 : e5 < 0) by (unfold e5; lia).
    set (E := ceil_div (200 * h) w).
    pose proof (ceil_div_spec (200 * h) w ltac:(lia)) as HE. fold E in HE.
    pose proof (Zceil_float_spec m5 e5 He5) as Hc. cbv zeta in Hc.
    set (c := Go.Zceil_float (S754_finite false m5 e5)) in *.
    set (A := 2 ^ (- eh)) in *. set (B := 2 ^ (- ew)) in *.
    set (U := 2 ^ (- e5)) in *.
    assert (HA : 2 ^ 21 <= A) by (apply Z.pow_le_mono_r; lia).
    assert (HB : 1 <= B) by (unfold B; apply (Z.pow_le_mono_r 2 0); lia).
    assert (HU : 0 < U) by (apply Z.pow_pos_nonneg; lia).
    assert (HK : 1 <= 2 ^ k <= 4).
    { split; [apply (Z.pow_le_mono_r 2 0) | apply (Z.pow_le_mono_r 2 k 2)]; lia. }
    assert (HK' : 1 <= 2 ^ k' <= 2 ^ 54).
    { split; [apply (Z.pow_le_mono_r 2 0) | apply Z.pow_le_mono_r]; lia. }
    assert (Hid : U * B * 2 ^ k * 2 ^ k' = 2 ^ 98 * A).
    { unfold U, B, A. rewrite <- !Z.pow_add_r by lia. f_equal. unfold e5. lia. }
    destruct (height_arith h w E (Z.pos m3) (Z.pos m5) (Z.pos mh) (Z.pos mw)
                A B (2 ^ k) (2 ^ k') U) as (G1 & G2 & G3); try assumption; try lia.
    assert (HcE : E <= c).
    { assert (Hlt : (E - 1) * U < c * U) by lia.
      apply pow2_cancel_lt in Hlt; [lia | exact HU]. }
    assert (HcE1 : c <= E + 1).
    { assert (Hlt : (c - 1) * U < (E + 1) * U) by lia.
      apply pow2_cancel_lt in Hlt; [lia | exact HU]. }
    assert (HE1 : 1 <= E).
    { destruct (Z_lt_le_dec E 1) as [Hlt|]; [|assumption]. exfalso.
      assert (E * w <= 0 * w) by (apply Z.mul_le_mono_nonneg_r; lia). lia. }
    assert (HEh : E <= 200 * h).
    { assert ((E - 1) * 1 <= (E - 1) * w) by (apply Z.mul_le_mono_nonneg_l; lia).
      lia. }
    rewrite int_of_Ceil by (fold c; lia). fold c.
    split; [lia|].
    intros Hnd. apply (ceil_div_not_multiple (200 * h) w) in Hnd; [|lia].
    fold E in Hnd. specialize (G3 Hnd).
    assert (Hlt : (c - 1) * U < E * U) by lia.
    apply pow2_cancel_lt in Hlt; [lia | exact HU].
Qed.

End FloatFacts.

(** ** The loader *)

Module LoadFacts.

Section WithEnv.
Context `{Env}.

Import Main.

(** The three ways through [NewSourceImgFromString]. *)
Lemma load_unrecognized (app : App) (simg : string) :
  strip_prefix simg = None -> NewSourceImgFromString app simg = app.
Proof. intros Hp. unfold NewSourceImgFromString. rewrite Hp. reflexivity. Qed.

Lemma load_decode_error (app : App) (simg payload : string) (img : Image)
    (err : string) :
  strip_prefix simg = Some payload ->
  image_Decode payload = (img, Some err) ->
  NewSourceImgFromString app simg = set_sourceImg app img.
Proof.
  intros Hp Hd. unfold NewSourceImgFromString. rewrite Hp, Hd. reflexivity.
Qed.

Lemma load_decoded (app : App) (simg payload : string) (img : Image) :
  strip_prefix simg = Some payload ->
  image_Decode payload = (img, None) ->
  NewSourceImgFromString app simg =
  set_resizedImg (set_sourceImg app img)
    (transform_Resize img (dstWidth app)
       (dstHeight_of (Dx img) (Dy img) (dstWidth app)) Linear).
Proof.
  intros Hp Hd. unfold NewSourceImgFromString. rewrite Hp, Hd. reflexivity.
Qed.

(** Arithmetic on a zero width: the quotient is an infinity or a NaN, and
    stays so through the product and [Ceil]. *)
Lemma fdiv_zero_not_finite (x : Go.float64) :
  Go.is_finite (Go.fdiv x (S754_zero false)) = false.
Proof. destruct x as [s|s| |s m e]; reflexivity. Qed.

Lemma fmul_not_finite (x y : Go.float64) :
  Go.is_finite x = false -> Go.is_finite (Go.fmul x y) = false.
Proof.
  destruct x as [s|s| |s m e]; try discriminate; intros _;
    destruct y as [s'|s'| |s' m' e']; reflexivity.
Qed.

Lemma Ceil_not_finite (x : Go.float64) :
  Go.is_finite x = false -> Go.Ceil x = x.
Proof. destruct x as [s|s| |s m e]; try discriminate; reflexivity. Qed.

Lemma dstHeight_of_zero_width (srcHeight dstWidth : Z) :
  exists x, Go.is_finite x = false
            /\ dstHeight_of 0 srcHeight dstWidth = int_of_unrepresentable x.
Proof.
  exists (Go.fmul (ratio_of 0 srcHeight) (Go.float64_of_int dstWidth)).
  assert (Hnf : Go.is_finite
                  (Go.fmul (ratio_of 0 srcHeight) (Go.float64_of_int dstWidth))
                = false).
  { apply fmul_not_finite. unfold ratio_of.
    change (Go.float64_of_int 0) with (S754_zero false).
    apply fdiv_zero_not_finite. }
  split; [exact Hnf|].
  unfold dstHeight_of. rewrite (Ceil_not_finite _ Hnf).
  unfold Go.int_of_float64. rewrite Hnf. reflexivity.
Qed.

End WithEnv.

End LoadFacts.

(** C1 fails on a decode error: [NewSourceImgFromString] assigns the
    result of [image.Decode] to [app.sourceImg] before it tests the error,
    then returns.  A session holding a 400x300 image that loads a PNG data
    URL whose bytes are not an image ends with the original replaced by nil
    and the preview of the old image still in place.  The unrecognized
    prefix leaves both untouched. *)
Theorem load_decode_error_partial :
  let loaded := Main.embedded (session [Upload "data:image/jpeg;base64,400x300"]) in
  let failed := Main.NewSourceImgFromString loaded "data:image/png;base64,AAAA" in
  let other := Main.NewSourceImgFromString loaded "data:image/gif;base64,AAAA" in
  Main.sourceImg loaded = TermLib.TDecoded 400 300
  /\ Main.resizedImg loaded = TermLib.TResize (TermLib.TDecoded 400 300) 200 150 Linear
  /\ Main.sourceImg failed = TermLib.TNil
  /\ Main.resizedImg failed = Main.resizedImg loaded
  /\ other = loaded.
Proof. vm_compute. repeat split. Qed.

(** C6, as stated, fails: a 100x7 source gets the preview height 15,
    while the ceiling of 200 * 7 / 100 is 14.  The quotient 7 / 100 is
    rounded up to the nearest float64, and so is its product with 200, which
    lies just above 14. *)
Lemma preview_height_not_exact_ceiling :
  let loaded := Main.embedded (session [Upload "data:image/jpeg;base64,100x7"]) in
  Main.sourceImg loaded = TermLib.TDecoded 100 7
  /\ Main.resizedImg loaded = TermLib.TResize (TermLib.TDecoded 100 7) 200 15 Linear
  /\ ceil_div (200 * 7) 100 = 14
  /\ Go.fmul (ratio_of 100 7) (Go.float64_of_int 200)
     = S754_finite false (14 * 2 ^ 49 + 1) (-49).
Proof. vm_compute. repeat split. Qed.

(** C9, as stated, fails: an input that decodes to a zero-width image is
    loaded; the image becomes the original and a preview is made from it. *)
Lemma load_zero_width_accepted :
  let loaded := Main.embedded (session [Upload "data:image/png;base64,0x7"]) in
  Main.sourceImg loaded = TermLib.TDecoded 0 7
  /\ Main.resizedImg loaded
     = TermLib.TResize (TermLib.TDecoded 0 7) 200 Go.int_min Linear
  /\ loaded <> Main.NewApp.
Proof. vm_compute. repeat split. discriminate. Qed.

(** C9, amended: [NewSourceImgFromString] has no check of the dimensions
    and no failure for them.  For an input that decodes to a zero-width
    image it stores the decoded image as the original and, as the preview,
    the result of [transform.Resize] at the target width and at the height
    the platform gives for the conversion of a non-finite float64 (the
    quotient by the zero width) to [int]. *)
Theorem load_zero_width_not_rejected `{Env} (app : Main.App)
    (simg payload : string) (img : Image) :
  Main.strip_prefix simg = Some payload ->
  image_Decode payload = (img, None) ->
  Dx img = 0 ->
  exists x, Go.is_finite x = false
    /\ Main.NewSourceImgFromString app simg
       = Main.set_resizedImg (Main.set_sourceImg app img)
           (transform_Resize img (Main.dstWidth app)
              (int_of_unrepresentable x) Linear).
Proof.
  intros Hp Hd Hw.
  destruct (LoadFacts.dstHeight_of_zero_width (Dy img) (Main.dstWidth app))
    as (x & Hx & Hh).
  exists x. split; [exact Hx|].
  rewrite (LoadFacts.load_decoded app simg payload img Hp Hd), Hw, Hh.
  reflexivity.
Qed.

Lemma load_zero_width_not_rejected_witness :
  exists x, Go.is_finite x = false
    /\ Main.NewSourceImgFromString Main.NewApp "data:image/png;base64,0x7"
       = Main.set_resizedImg (H := TermLib.env)
           (Main.set_sourceImg (H := TermLib.env) Main.NewApp (TermLib.TDecoded 0 7))
           (TermLib.TResize (TermLib.TDecoded 0 7) 200 Go.int_min Linear).
Proof.
  apply (load_zero_width_not_rejected (H := TermLib.env) Main.NewApp
           "data:image/png;base64,0x7" "0x7" (TermLib.TDecoded 0 7)); reflexivity.
Defined.

(** The target width is 200 throughout a session. *)
Lemma session_dstWidth `{Env} (evs : list event) :
  Main.dstWidth (Main.embedded (session evs)) = 200.
Proof.
  unfold session.
  assert (Hgen : forall jsa, Main.dstWidth (Main.embedded jsa) = 200 ->
                 Main.dstWidth (Main.embedded (fold_left handle evs jsa)) = 200).
  { induction evs as [|ev evs IH]; intros jsa Hw; [exact Hw|].
    simpl fold_left. apply IH.
    destruct ev as [dataURL | selected | id v]; simpl; try exact Hw.
    destruct (NewSourceImgFromString_frame (Main.embedded jsa) dataURL)
      as (_ & _ & ->). exact Hw. }
  apply Hgen. reflexivity.
Qed.

(** C6, amended: for a successfully decoded source of width [w > 0] and
    height [h], [NewSourceImgFromString] stores the decoded image and, as
    the preview, its resize with the linear filter to the target width, 200
    in every session, and to the height [int(math.Ceil(float64(h) /
    float64(w) * 200))], computed in float64 arithmetic.  For [w < 2^53] and
    [0 <= h < 2^32] that height is the ceiling of [200 * h / w] when the
    quotient is not an integer, and the quotient or one more when it is.  A
    400x300 source yields a 200x150 preview. *)
Theorem load_preview_geometry `{Env} (app : Main.App) (simg payload : string)
    (img : Image) :
  Main.strip_prefix simg = Some payload ->
  image_Decode payload = (img, None) ->
  0 < Dx img ->
  Main.dstWidth app = 200 ->
  let height := dstHeight_of (Dx img) (Dy img) 200 in
  Main.NewSourceImgFromString app simg
  = Main.set_resizedImg (Main.set_sourceImg app img)
      (transform_Resize img 200 height Linear)
  /\ (Dx img < 2 ^ 53 -> 0 <= Dy img < 2 ^ 32 ->
      ceil_div (200 * Dy img) (Dx img) <= height <= ceil_div (200 * Dy img) (Dx img) + 1
      /\ ((200 * Dy img) mod Dx img <> 0 ->
          height = ceil_div (200 * Dy img) (Dx img)))
  /\ (Dx img = 400 -> Dy img = 300 -> height = 150).
Proof.
  intros Hp Hd Hw H200 height. split; [|split].
  - rewrite (LoadFacts.load_decoded app simg payload img Hp Hd), H200. reflexivity.
  - intros Hw53 Hh. apply FloatFacts.dstHeight_of_ceiling; lia.
  - intros Hw400 Hh300. unfold height. rewrite Hw400, Hh300. vm_compute. reflexivity.
Qed.

Lemma load_preview_geometry_witness :
  Main.NewSourceImgFromString Main.NewApp "data:image/jpeg;base64,400x300"
  = Main.set_resizedImg (H := TermLib.env)
      (Main.set_sourceImg (H := TermLib.env) Main.NewApp (TermLib.TDecoded 400 300))
      (TermLib.TResize (TermLib.TDecoded 400 300) 200 150 Linear).
Proof.
  refine (proj1 (load_preview_geometry (H := TermLib.env) Main.NewApp
                   "data:image/jpeg;base64,400x300" "400x300"
                   (TermLib.TDecoded 400 300) _ _ _ _)).
  - reflexivity.
  - reflexivity.
  - simpl. lia.
  - reflexivity.
Defined.

(** * Further properties of the code *)

(** ** The pipeline of main.go *)

Module PipelineFacts.

Section WithEnv.
Context `{Env}.

Import Main.

Lemma Update_loop_labels (effs : list Effect) (id : string) (v : Go.float64) :
  map (fun e => (Id e, Name e, Min e, Max e)) (Update_loop effs id v)
  = map (fun e => (Id e, Name e, Min e, Max e)) effs.
Proof.
  induction effs as [|eff effs IH]; simpl; [reflexivity|].
  destruct (String.eqb (Id eff) id); simpl; congruence.
Qed.

Lemma Update_loop_twice (effs : list Effect) (id : string) (v v' : Go.float64) :
  Update_loop (Update_loop effs id v) id v' = Update_loop effs id v'.
Proof.
  induction effs as [|eff effs IH]; simpl; [reflexivity|].
  destruct (String.eqb (Id eff) id) eqn:E; simpl; rewrite E; [reflexivity|].
  f_equal. exact IH.
Qed.

Lemma Update_loop_comm (effs : list Effect) (a b : string) (v w : Go.float64) :
  a <> b ->
  Update_loop (Update_loop effs a v) b w = Update_loop (Update_loop effs b w) a v.
Proof.
  intros Hab. induction effs as [|eff effs IH]; simpl; [reflexivity|].
  destruct (String.eqb (Id eff) a) eqn:Ea; destruct (String.eqb (Id eff) b) eqn:Eb;
    simpl; rewrite ?Ea, ?Eb; try reflexivity.
  - apply String.eqb_eq in Ea, Eb. congruence.
  - f_equal. exact IH.
Qed.

Lemma session_names_from (evs : list event) (jsa : JsApp) :
  map Name (effects (embedded (fold_left handle evs jsa)))
  = map Name (effects (embedded jsa)) ++ selected_names evs.
Proof.
  revert jsa. induction evs as [|ev evs IH]; intros jsa.
  - simpl. rewrite app_nil_r. reflexivity.
  - simpl fold_left. rewrite IH.
    destruct ev as [dataURL | selected | id v]; simpl.
    + destruct (NewSourceImgFromString_frame (embedded jsa) dataURL) as [-> _].
      reflexivity.
    + rewrite map_app, <- app_assoc. reflexivity.
    + f_equal.
      pose proof (Update_loop_labels (effects (embedded jsa)) id v) as Hl.
      apply (f_equal (map (fun t => snd (fst (fst t))))) in Hl.
      rewrite !map_map in Hl. exact Hl.
Qed.

Lemma shadowed_at_zero_app (seen : list string) (effs : list Effect)
    (new : Effect) :
  shadowed_at_zero seen effs -> Value new = S754_zero false ->
  shadowed_at_zero seen (effs ++ [new]).
Proof.
  revert seen. induction effs as [|eff effs IH]; intros seen Hs Hnew; simpl in *.
  - auto.
  - destruct Hs as [Hhd Htl]. split; [exact Hhd | apply IH; assumption].
Qed.

Lemma shadowed_at_zero_Update (seen : list string) (effs : list Effect)
    (id : string) (v : Go.float64) :
  ~ In id seen -> shadowed_at_zero seen effs ->
  shadowed_at_zero seen (Update_loop effs id v).
Proof.
  revert seen. induction effs as [|eff effs IH]; intros seen Hid Hs; simpl in *.
  - exact I.
  - destruct Hs as [Hhd Htl].
    destruct (String.eqb (Id eff) id) eqn:E; simpl.
    + apply String.eqb_eq in E. split; [|exact Htl].
      intros Hin. exfalso. apply Hid. rewrite <- E. exact Hin.
    + apply String.eqb_neq in E. split; [exact Hhd|].
      apply IH; [|exact Htl]. intros [Heq | Hin]; [exact (E Heq) | exact (Hid Hin)].
Qed.

Lemma shadowed_at_zero_lookup (seen : list string) (effs : list Effect)
    (i : nat) (e : Effect) :
  shadowed_at_zero seen effs ->
  effs !! i = Some e ->
  (In (Id e) seen
   \/ exists j e', (j < i)%nat /\ effs !! j = Some e' /\ Id e' = Id e) ->
  Value e = S754_zero false.
Proof.
  revert seen i. induction effs as [|eff effs IH]; intros seen i Hs Hi Hsh.
  - discriminate.
  - destruct Hs as [Hhd Htl]. destruct i as [|i]; simpl in Hi.
    + injection Hi as ->. destruct Hsh as [Hin | (j & _ & Hj & _)]; [auto | lia].
    + apply (IH (Id eff :: seen) i Htl Hi).
      destruct Hsh as [Hin | (j & e' & Hj & He' & Hid)].
      * left. right. exact Hin.
      * destruct j as [|j]; simpl in He'.
        -- injection He' as ->. left. left. exact Hid.
        -- right. exists j, e'. repeat split; [lia | exact He' | exact Hid].
Qed.

Lemma session_shadowed_at_zero (evs : list event) :
  shadowed_at_zero [] (effects (embedded (session evs))).
Proof.
  unfold session.
  assert (Hgen : forall jsa, shadowed_at_zero [] (effects (embedded jsa)) ->
                 shadowed_at_zero [] (effects (embedded (fold_left handle evs jsa)))).
  { induction evs as [|ev evs IH]; intros jsa Hs; [exact Hs|].
    simpl fold_left. apply IH.
    destruct ev as [dataURL | selected | id v]; simpl.
    - destruct (NewSourceImgFromString_frame (embedded jsa) dataURL) as [-> _].
      exact Hs.
    - apply shadowed_at_zero_app; [exact Hs | reflexivity].
    - apply shadowed_at_zero_Update; [intros [] | exact Hs]. }
  apply Hgen. exact I.
Qed.

End WithEnv.

End PipelineFacts.

(** X1: [Update] only ever writes a value.  The pipeline keeps its
    length and order, every instance keeps its id, name and bounds, and the
    images, the counter and the target width are untouched. *)
Theorem update_keeps_shape `{Env} (app : Main.App) (id : string) (v : Go.float64) :
  let app' := Main.Update app id v in
  length (Main.effects app') = length (Main.effects app)
  /\ map (fun e => (Main.Id e, Main.Name e, Main.Min e, Main.Max e)) (Main.effects app')
     = map (fun e => (Main.Id e, Main.Name e, Main.Min e, Main.Max e)) (Main.effects app)
  /\ Main.sourceImg app' = Main.sourceImg app
  /\ Main.resizedImg app' = Main.resizedImg app
  /\ Main.cnt app' = Main.cnt app
  /\ Main.dstWidth app' = Main.dstWidth app.
Proof.
  simpl. split; [apply MainFacts.Update_loop_length|].
  split; [apply PipelineFacts.Update_loop_labels|]. repeat split.
Qed.

(** X2: the last write wins.  Two updates of the same id leave the state
    of the second one alone; in particular an update repeated is the update
    done once. *)
Theorem update_last_write_wins `{Env} (app : Main.App) (id : string)
    (v v' : Go.float64) :
  Main.Update (Main.Update app id v) id v' = Main.Update app id v'.
Proof.
  unfold Main.Update, Main.set_effects. simpl. f_equal.
  apply PipelineFacts.Update_loop_twice.
Qed.

(** X3: updates of different ids commute. *)
Theorem update_different_ids_commute `{Env} (app : Main.App) (a b : string)
    (v w : Go.float64) :
  a <> b ->
  Main.Update (Main.Update app a v) b w = Main.Update (Main.Update app b w) a v.
Proof.
  intros Hab. unfold Main.Update, Main.set_effects. simpl. f_equal.
  apply PipelineFacts.Update_loop_comm, Hab.
Qed.

Lemma update_different_ids_commute_witness :
  let app := Main.embedded (session [AddEffect "contrast"; AddEffect "brightness"]) in
  Main.Update (Main.Update app "contrast0" (Go.float64_of_int 1))
    "brightness0" (Go.float64_of_int 2)
  = Main.Update (Main.Update app "brightness0" (Go.float64_of_int 2))
      "contrast0" (Go.float64_of_int 1).
Proof.
  intros app. apply (update_different_ids_commute app). discriminate.
Defined.

(** X4: rendering after an append is the previous rendering followed by
    the new instance: its function is applied to the image the pipeline
    gave before, a panic of the pipeline stays, and a name without function
    panics at the new, last step. *)
Theorem preview_after_append `{Env} (app : Main.App) (eff : Main.Effect) :
  Main.PreviewImg (Main.Append app eff) = fold_step (Main.PreviewImg app) eff.
Proof.
  unfold Main.PreviewImg. simpl. rewrite MainFacts.PreviewImg_loop_app.
  destruct (Main.PreviewImg_loop (Main.effects app) (Main.resizedImg app));
    simpl; [|reflexivity].
  destruct (Main.GetEffectFn eff); reflexivity.
Qed.

(** X5: the pipeline is append-only.  After any sequence of events its
    kinds are exactly the names selected by the add events, in the order of
    the clicks; no upload and no slider change adds, drops or moves one. *)
Theorem session_pipeline_is_click_order `{Env} (evs : list event) :
  map Main.Name (Main.effects (Main.embedded (session evs))) = selected_names evs
  /\ length (Main.effects (Main.embedded (session evs))) = length (selected_names evs).
Proof.
  assert (Hn : map Main.Name (Main.effects (Main.embedded (session evs)))
               = selected_names evs).
  { unfold session. rewrite PipelineFacts.session_names_from. reflexivity. }
  split; [exact Hn|]. rewrite <- Hn, length_map. reflexivity.
Qed.

(** X6: in a session of [main.go] an instance added after another one of
    the same kind can never be tuned.  Both carry the same id, [Update]
    stops at the first, and the later instance keeps its initial value 0
    whatever events follow. *)
Theorem session_later_duplicate_stays_zero `{Env} (evs : list event) (i j : nat)
    (e e' : Main.Effect) :
  Main.effects (Main.embedded (session evs)) !! i = Some e ->
  Main.effects (Main.embedded (session evs)) !! j = Some e' ->
  (j < i)%nat ->
  Main.Name e' = Main.Name e ->
  Main.Value e = S754_zero false.
Proof.
  intros Hi Hj Hlt Hname.
  apply (PipelineFacts.shadowed_at_zero_lookup [] _ i e
           (PipelineFacts.session_shadowed_at_zero evs) Hi).
  right. exists j, e'. repeat split; [exact Hlt | exact Hj |].
  destruct (session_ids_end_in_0 evs) as [_ Hids].
  rewrite Forall_forall in Hids.
  rewrite (Hids e), (Hids e'), Hname; [reflexivity | |].
  - apply list_elem_of_lookup. eauto.
  - apply list_elem_of_lookup. eauto.
Qed.

Lemma session_later_duplicate_stays_zero_witness :
  let evs := [AddEffect "contrast"; AddEffect "contrast";
              ChangeEffect "contrast0" (Go.float64_of_int 1)] in
  Main.effects (Main.embedded (session evs)) !! 1%nat
  = Some (Main.new_Effect "contrast" 0)
  /\ Main.Value (Main.new_Effect "contrast" 0) = S754_zero false.
Proof.
  intros evs. split; [reflexivity|].
  apply (session_later_duplicate_stays_zero evs 1 0
           (Main.new_Effect "contrast" 0)
           (Main.set_Value (Main.new_Effect "contrast" 0) (Go.float64_of_int 1))).
  - reflexivity.
  - reflexivity.
  - lia.
  - reflexivity.
Defined.

(** X7: for the state a sequence of events of [main.go] gives, once a
    preview is loaded and the bild calls returning images, [PreviewImg]
    returns an image exactly when every name selected so far is brightness
    or contrast, and calls a nil function exactly when one click chose
    another option. *)
Theorem session_renders_iff_names_handled `{Env} (evs : list event) :
  library_returns_images ->
  Main.resizedImg (Main.embedded (session evs)) <> nilImage ->
  ((exists img, Main.PreviewImg (Main.embedded (session evs)) = Done img
                /\ img <> nilImage)
   <-> forallb registered (selected_names evs) = true)
  /\ (Main.PreviewImg (Main.embedded (session evs)) = Panic NilFuncCall
      <-> forallb registered (selected_names evs) = false).
Proof.
  intros Hlib Himg.
  assert (Hn : forallb (fun eff => registered (Main.Name eff))
                 (Main.effects (Main.embedded (session evs)))
               = forallb registered (selected_names evs)).
  { unfold session.
    rewrite <- (PipelineFacts.session_names_from evs (Main.NewJsApp Main.NewApp)).
    generalize (Main.effects
                  (Main.embedded (fold_left handle evs (Main.NewJsApp Main.NewApp)))).
    intros l. induction l as [|a l IH]; simpl; [reflexivity | rewrite IH; reflexivity]. }
  unfold Main.PreviewImg. rewrite <- Hn. split.
  - split.
    + intros (img & Hdone & _).
      destruct (forallb (fun eff => registered (Main.Name eff))
                  (Main.effects (Main.embedded (session evs)))) eqn:Hall;
        [reflexivity|].
      apply MainFacts.PreviewImg_loop_panics
        with (img := Main.resizedImg (Main.embedded (session evs))) in Hall.
      congruence.
    + intros Hall. apply ImageFacts.PreviewImg_loop_image; assumption.
  - apply MainFacts.PreviewImg_loop_panics.
Qed.

Lemma session_renders_iff_names_handled_witness :
  let evs := [Upload "data:image/png;base64,4x3"; AddEffect "brightness";
              ChangeEffect "brightness0" (Go.float64_of_int 1)] in
  ((exists img, Main.PreviewImg (Main.embedded (session evs)) = Done img
                /\ img <> nilImage)
   <-> forallb registered (selected_names evs) = true)
  /\ (Main.PreviewImg (Main.embedded (session evs)) = Panic NilFuncCall
      <-> forallb registered (selected_names evs) = false).
Proof.
  intros evs.
  apply (session_renders_iff_names_handled (H := TermLib.env) evs).
  - intros img v _. repeat split; discriminate.
  - vm_compute. discriminate.
Defined.

(** ** The loader of main.go *)

Module LoaderFacts.

Lemma prefix_append (p r : string) : String.prefix p (p +:+ r) = true.
Proof.
  induction p as [|a p IH]; simpl.
  - destruct r; reflexivity.
  - destruct (ascii_dec a a) as [_ | Hne]; [exact IH | congruence].
Qed.

Lemma string_drop_append (p r : string) :
  Go.string_drop (String.length p) (p +:+ r) = r.
Proof. induction p as [|a p IH]; simpl; [reflexivity | exact IH]. Qed.

Lemma prefix_split (p s : string) :
  String.prefix p s = true -> s = p +:+ Go.string_drop (String.length p) s.
Proof.
  revert s. induction p as [|a p IH]; intros s Hp; simpl.
  - reflexivity.
  - destruct s as [|b s]; simpl in Hp; [discriminate|].
    destruct (ascii_dec a b) as [-> | _]; [|discriminate].
    change (String b s = String b (p +:+ Go.string_drop (String.length p) s)).
    f_equal. apply IH, Hp.
Qed.

Lemma TrimPrefix_append (p r : string) : Go.TrimPrefix (p +:+ r) p = r.
Proof.
  unfold Go.TrimPrefix, Go.HasPrefix. rewrite prefix_append.
  apply string_drop_append.
Qed.

Lemma strip_prefix_Some (simg payload : string) :
  Main.strip_prefix simg = Some payload <->
  simg = jpegPrefix +:+ payload \/ simg = pngPrefix +:+ payload.
Proof.
  unfold Main.strip_prefix. split.
  - destruct (Go.HasPrefix simg jpegPrefix) eqn:Hj.
    + intros [= <-]. left. unfold Go.TrimPrefix. rewrite Hj.
      apply prefix_split, Hj.
    + destruct (Go.HasPrefix simg pngPrefix) eqn:Hp; [|discriminate].
      intros [= <-]. right. unfold Go.TrimPrefix. rewrite Hp.
      apply prefix_split, Hp.
  - intros [-> | ->].
    + unfold Go.HasPrefix. rewrite prefix_append, TrimPrefix_append. reflexivity.
    + replace (Go.HasPrefix (pngPrefix +:+ payload) jpegPrefix) with false
        by reflexivity.
      unfold Go.HasPrefix. rewrite prefix_append, TrimPrefix_append. reflexivity.
Qed.

Section WithEnv.
Context `{Env}.

Import Main.

Lemma load_frame (app : App) (simg : string) :
  effects (NewSourceImgFromString app simg) = effects app
  /\ cnt (NewSourceImgFromString app simg) = cnt app
  /\ dstWidth (NewSourceImgFromString app simg) = dstWidth app.
Proof.
  unfold NewSourceImgFromString.
  destruct (strip_prefix simg) as [payload|]; [|auto].
  destruct (image_Decode payload) as [img [err|]]; simpl; auto.
Qed.

Lemma load_decoded_eq (app : App) (simg payload : string) (img : Image) :
  strip_prefix simg = Some payload ->
  image_Decode payload = (img, None) ->
  NewSourceImgFromString app simg
  = {| cnt := cnt app; dstWidth := dstWidth app; sourceImg := img;
       resizedImg := transform_Resize img (dstWidth app)
                       (dstHeight_of (Dx img) (Dy img) (dstWidth app)) Linear;
       effects := effects app |}.
Proof.
  intros Hp Hd. unfold NewSourceImgFromString. rewrite Hp, Hd. reflexivity.
Qed.

End WithEnv.

End LoaderFacts.

(** X8: the loader reads a string as a data URL exactly when it starts
    with one of the two prefixes, and what it hands to the decoder is
    exactly the rest: putting the prefix back gives the input. *)
Theorem strip_prefix_data_url (simg payload : string) :
  (Main.strip_prefix simg = Some payload <->
   simg = jpegPrefix +:+ payload \/ simg = pngPrefix +:+ payload)
  /\ (Main.strip_prefix simg = None <->
      Go.HasPrefix simg jpegPrefix = false /\ Go.HasPrefix simg pngPrefix = false).
Proof.
  split; [apply LoaderFacts.strip_prefix_Some|].
  unfold Main.strip_prefix.
  destruct (Go.HasPrefix simg jpegPrefix); destruct (Go.HasPrefix simg pngPrefix);
    split; try discriminate; try tauto; intros [? ?]; discriminate.
Qed.

(** X9: a successful load overwrites whatever an earlier load left, a
    decoded image or the nil of a failed decode: the state after it is the
    state the load alone would give. *)
Theorem load_overwrites_previous `{Env} (app : Main.App) (s1 s2 payload : string)
    (img : Image) :
  Main.strip_prefix s2 = Some payload ->
  image_Decode payload = (img, None) ->
  Main.NewSourceImgFromString (Main.NewSourceImgFromString app s1) s2
  = Main.NewSourceImgFromString app s2.
Proof.
  intros Hp Hd.
  rewrite !(LoaderFacts.load_decoded_eq _ s2 payload img Hp Hd).
  destruct (LoaderFacts.load_frame app s1) as (-> & -> & ->). reflexivity.
Qed.

Lemma load_overwrites_previous_witness :
  Main.NewSourceImgFromString
    (Main.NewSourceImgFromString Main.NewApp "data:image/png;base64,AAAA")
    "data:image/jpeg;base64,400x300"
  = Main.NewSourceImgFromString Main.NewApp "data:image/jpeg;base64,400x300".
Proof.
  apply (load_overwrites_previous (H := TermLib.env) Main.NewApp
           "data:image/png;base64,AAAA" "data:image/jpeg;base64,400x300"
           "400x300" (TermLib.TDecoded 400 300)); reflexivity.
Defined.

(** X10: loading the same string twice is loading it once, whether the
    string is rejected, fails to decode or decodes. *)
Theorem load_idempotent `{Env} (app : Main.App) (simg : string) :
  Main.NewSourceImgFromString (Main.NewSourceImgFromString app simg) simg
  = Main.NewSourceImgFromString app simg.
Proof.
  destruct (Main.strip_prefix simg) as [payload|] eqn:Hp.
  - destruct (image_Decode payload) as [img [err|]] eqn:Hd.
    + rewrite !(LoadFacts.load_decode_error _ simg payload img err Hp Hd).
      reflexivity.
    + rewrite !(LoaderFacts.load_decoded_eq _ simg payload img Hp Hd). reflexivity.
  - rewrite !(LoadFacts.load_unrecognized _ simg Hp). reflexivity.
Qed.

(** X11: a load never touches the pipeline.  The instances, their
    values, the counter and the target width are as before, and the next
    rendering runs the same pipeline on whatever preview the load left. *)
Theorem load_keeps_pipeline `{Env} (app : Main.App) (simg : string) :
  let app' := Main.NewSourceImgFromString app simg in
  Main.effects app' = Main.effects app
  /\ Main.cnt app' = Main.cnt app
  /\ Main.dstWidth app' = Main.dstWidth app
  /\ Main.PreviewImg app'
     = fold_left fold_step (Main.effects app) (Done (Main.resizedImg app')).
Proof.
  intros app'. destruct (LoaderFacts.load_frame app simg) as (He & Hc & Hw).
  repeat split; try assumption.
  unfold Main.PreviewImg. fold app'. replace (Main.effects app') with (Main.effects app).
  apply MainFacts.PreviewImg_loop_fold.
Qed.

(** ** The preview height *)

Module HeightFacts.

Section WithEnv.
Context `{Env}.

Lemma dstHeight_of_zero_height (w : Z) :
  0 < w < 2 ^ 53 -> dstHeight_of w 0 200 = 0.
Proof.
  intros Hw.
  unfold dstHeight_of, ratio_of, Go.fmul, Go.fdiv, Go.float64_of_int, Go.prec, Go.emax.
  destruct (FloatFacts.binary_normalize_exact w false Hw) as (mw & ew & Heqw & _).
  rewrite Heqw, FloatFacts.float64_200. reflexivity.
Qed.

Lemma ceil_div_le (a b w : Z) :
  0 < w -> a <= b -> ceil_div a w <= ceil_div b w.
Proof.
  intros Hw Hab.
  pose proof (FloatFacts.ceil_div_spec a w Hw) as Ha.
  pose proof (FloatFacts.ceil_div_spec b w Hw) as Hb.
  assert (Hlt : (ceil_div a w - 1) * w < ceil_div b w * w) by lia.
  apply FloatFacts.pow2_cancel_lt in Hlt; lia.
Qed.

Lemma ceil_div_multiple (a w : Z) :
  0 < w -> a mod w = 0 -> ceil_div a w * w = a.
Proof.
  intros Hw Hm. unfold ceil_div.
  assert (Hm' : (- a) mod w = 0) by (apply Z.mod_opp_l_z; lia).
  pose proof (Z_div_mod_eq_full (- a) w) as Heq. rewrite Hm' in Heq. lia.
Qed.

Lemma dstHeight_of_mono_height (w h1 h2 : Z) :
  0 < w < 2 ^ 53 -> 0 <= h1 <= h2 -> h2 < 2 ^ 32 ->
  dstHeight_of w h1 200 <= dstHeight_of w h2 200.
Proof.
  intros Hw Hh Hh2.
  destruct (Z.eq_dec h1 h2) as [-> | Hne]; [lia|].
  destruct (FloatFacts.dstHeight_of_ceiling w h1 Hw) as [B1 N1]; [lia|].
  destruct (FloatFacts.dstHeight_of_ceiling w h2 Hw) as [B2 _]; [lia|].
  assert (Hw0 : 0 < w) by lia.
  destruct (Z.eq_dec ((200 * h1) mod w) 0) as [Hm | Hm].
  - pose proof (ceil_div_multiple (200 * h1) w Hw0 Hm) as HE1.
    pose proof (FloatFacts.ceil_div_spec (200 * h2) w Hw0) as HE2.
    assert (Hlt : ceil_div (200 * h1) w * w < ceil_div (200 * h2) w * w) by lia.
    apply FloatFacts.pow2_cancel_lt in Hlt; lia.
  - specialize (N1 Hm).
    pose proof (ceil_div_le (200 * h1) (200 * h2) w Hw0 ltac:(lia)). lia.
Qed.

Lemma dstHeight_of_anti_width (w1 w2 h : Z) :
  0 < w1 <= w2 -> w2 < 2 ^ 53 -> 0 <= h < 2 ^ 32 ->
  dstHeight_of w2 h 200 <= dstHeight_of w1 h 200.
Proof.
  intros Hw Hw2 Hh.
  destruct (Z.eq_dec w1 w2) as [-> | Hne]; [lia|].
  destruct (Z.eq_dec h 0) as [-> | Hh0].
  { rewrite !dstHeight_of_zero_height by lia. lia. }
  destruct (FloatFacts.dstHeight_of_ceiling w1 h) as [B1 _]; [lia | lia |].
  destruct (FloatFacts.dstHeight_of_ceiling w2 h) as [B2 N2]; [lia | lia |].
  assert (Hw10 : 0 < w1) by lia. assert (Hw20 : 0 < w2) by lia.
  pose proof (FloatFacts.ceil_div_spec (200 * h) w1 Hw10) as HE1.
  pose proof (FloatFacts.ceil_div_spec (200 * h) w2 Hw20) as HE2.
  set (E1 := ceil_div (200 * h) w1) in *. set (E2 := ceil_div (200 * h) w2) in *.
  assert (HE1pos : 1 <= E1).
  { destruct (Z_lt_le_dec E1 1) as [Hlt|]; [|assumption]. exfalso.
    assert (E1 * w1 <= 0 * w1) by (apply Z.mul_le_mono_nonneg_r; lia). lia. }
  assert (HE1w : E1 * w1 <= E1 * w2) by (apply Z.mul_le_mono_nonneg_l; lia).
  destruct (Z.eq_dec ((200 * h) mod w2) 0) as [Hm | Hm].
  - pose proof (ceil_div_multiple (200 * h) w2 Hw20 Hm) as HE2eq. fold E2 in HE2eq.
    assert (HE1w' : E1 * w1 < E1 * w2) by (apply Z.mul_lt_mono_pos_l; lia).
    assert (Hlt : E2 * w2 < E1 * w2) by lia.
    apply FloatFacts.pow2_cancel_lt in Hlt; lia.
  - specialize (N2 Hm).
    assert (Hlt : (E2 - 1) * w2 < E1 * w2) by lia.
    apply FloatFacts.pow2_cancel_lt in Hlt; lia.
Qed.

End WithEnv.

End HeightFacts.

(** X12: for a source of positive width the preview height is 0 exactly
    when the source height is 0; a source with at least one row gets a
    preview of at least one row and of at most 200 times its rows plus
    one. *)
Theorem preview_height_zero_iff `{Env} (w h : Z) :
  0 < w < 2 ^ 53 -> 0 <= h < 2 ^ 32 ->
  (dstHeight_of w h 200 = 0 <-> h = 0)
  /\ (1 <= h -> 1 <= dstHeight_of w h 200 <= 200 * h + 1).
Proof.
  intros Hw Hh.
  assert (Hw0 : 0 < w) by lia.
  assert (Hpos : 1 <= h -> 1 <= dstHeight_of w h 200 <= 200 * h + 1).
  { intros Hh1.
    destruct (FloatFacts.dstHeight_of_ceiling w h Hw Hh) as [B _].
    pose proof (FloatFacts.ceil_div_spec (200 * h) w Hw0) as HE.
    set (E := ceil_div (200 * h) w) in *.
    assert (HE1 : 1 <= E).
    { destruct (Z_lt_le_dec E 1) as [Hlt|]; [|assumption]. exfalso.
      assert (E * w <= 0 * w) by (apply Z.mul_le_mono_nonneg_r; lia). lia. }
    assert (HEh : (E - 1) * 1 <= (E - 1) * w)
      by (apply Z.mul_le_mono_nonneg_l; lia).
    lia. }
  split; [|exact Hpos]. split.
  - intros H0. destruct (Z.eq_dec h 0) as [|Hne]; [assumption|].
    specialize (Hpos ltac:(lia)). lia.
  - intros ->. apply HeightFacts.dstHeight_of_zero_height, Hw.
Qed.

Lemma preview_height_zero_iff_witness :
  (dstHeight_of (H := TermLib.env) 640 480 200 = 0 <-> 480 = 0)
  /\ (1 <= 480 ->
      1 <= dstHeight_of (H := TermLib.env) 640 480 200 <= 200 * 480 + 1).
Proof. apply (preview_height_zero_iff (H := TermLib.env) 640 480); lia. Defined.

(** X13: the preview height follows the shape of the source.  At the
    same width a taller source never gets a shorter preview, and at the
    same height a wider source never gets a taller one, float rounding
    included. *)
Theorem preview_height_monotone `{Env} (w1 w2 h1 h2 : Z) :
  0 < w1 <= w2 -> w2 < 2 ^ 53 -> 0 <= h1 <= h2 -> h2 < 2 ^ 32 ->
  dstHeight_of w1 h1 200 <= dstHeight_of w1 h2 200
  /\ dstHeight_of w2 h1 200 <= dstHeight_of w1 h1 200.
Proof.
  intros Hw Hw2 Hh Hh2. split.
  - apply HeightFacts.dstHeight_of_mono_height; lia.
  - apply HeightFacts.dstHeight_of_anti_width; lia.
Qed.

Lemma preview_height_monotone_witness :
  dstHeight_of (H := TermLib.env) 100 7 200 <= dstHeight_of (H := TermLib.env) 100 8 200
  /\ dstHeight_of (H := TermLib.env) 101 7 200 <= dstHeight_of (H := TermLib.env) 100 7 200.
Proof. apply (preview_height_monotone (H := TermLib.env) 100 101 7 8); lia. Defined.

(** ** Exact quotients *)

Module ExactFacts.

Lemma shr_iter_exact (k : nat) (p : positive) :
  Nat.iter k shr_1 (exact_record (Z.pos p * 2 ^ Z.of_nat k)) = exact_record (Z.pos p).
Proof.
  revert p. induction k as [|k IH]; intros p.
  - simpl. rewrite Z.mul_1_r. reflexivity.
  - replace (Z.pos p * 2 ^ Z.of_nat (S k)) with (Z.pos p~0 * 2 ^ Z.of_nat k).
    + simpl Nat.iter. rewrite IH. reflexivity.
    + rewrite Nat2Z.inj_succ, Z.pow_succ_r, Pos2Z.inj_xO by lia. ring.
Qed.

Lemma shr_exact (p : positive) (e n : Z) :
  0 <= n ->
  shr (exact_record (Z.pos p * 2 ^ n)) e n = (exact_record (Z.pos p), e + n).
Proof.
  intros Hn. destruct n as [|q|q]; [| |lia].
  - simpl. rewrite Z.add_0_r. f_equal. f_equal. lia.
  - unfold shr. rewrite FloatFacts.iter_pos_nat.
    rewrite <- (positive_nat_Z q) at 1. rewrite shr_iter_exact. reflexivity.
Qed.

(** Rounding a mantissa that is a 53-bit one shifted left loses nothing. *)
Lemma binary_round_aux_exact_shift (s : bool) (mx m0 : positive) (e n : Z) :
  2 ^ 52 <= Z.pos m0 < 2 ^ 53 -> 0 <= n -> -1074 <= e + n <= 971 ->
  Z.pos mx = Z.pos m0 * 2 ^ n ->
  binary_round_aux 53 1024 s (Z.pos mx) e loc_Exact = S754_finite s m0 (e + n).
Proof.
  intros Hm0 Hn He Hmx.
  assert (Hpn : 0 < 2 ^ n) by (apply Z.pow_pos_nonneg; lia).
  assert (Hd : Zdigits2 (Z.pos mx) = 53 + n).
  { apply FloatFacts.Zdigits2_unique. rewrite Hmx.
    replace (53 + n - 1) with (52 + n) by lia.
    rewrite !Z.pow_add_r by lia. split; nia. }
  unfold binary_round_aux.
  assert (Hshr1 : shr_fexp 53 1024 (Z.pos mx) e loc_Exact
                  = (exact_record (Z.pos m0), e + n)).
  { unfold shr_fexp. rewrite Hd, FloatFacts.fexp_normal by lia.
    replace (53 + n + e - 53 - e) with n by lia.
    change (shr_record_of_loc (Z.pos mx) loc_Exact) with (exact_record (Z.pos mx)).
    rewrite Hmx. apply shr_exact, Hn. }
  rewrite Hshr1. cbn [exact_record shr_m loc_of_shr_record round_nearest_even].
  assert (Hshr2 : shr_fexp 53 1024 (Z.pos m0) (e + n) loc_Exact
                  = (exact_record (Z.pos m0), e + n)).
  { unfold shr_fexp.
    rewrite (FloatFacts.Zdigits2_unique m0 53 Hm0), FloatFacts.fexp_normal by lia.
    replace (53 + (e + n) - 53 - (e + n)) with 0 by lia. reflexivity. }
  rewrite Hshr2. cbn [exact_record shr_m].
  replace (e + n <=? 1024 - 53) with true by (symmetry; apply Z.leb_le; lia).
  reflexivity.
Qed.

(** The quotient of the floats of [k * w] and [w] is the float of [k]. *)
Lemma float_div_exact (w k : Z) :
  0 < w -> 0 < k -> k * w < 2 ^ 53 ->
  SFdiv 53 1024 (binary_normalize 53 1024 (k * w) 0 false)
    (binary_normalize 53 1024 w 0 false)
  = binary_normalize 53 1024 k 0 false.
Proof.
  intros Hw Hk Hkw.
  assert (Hw53 : 0 < w < 2 ^ 53) by nia.
  assert (Hk53 : 0 < k < 2 ^ 53) by nia.
  assert (Hh53 : 0 < k * w < 2 ^ 53) by nia.
  destruct (FloatFacts.binary_normalize_exact (k * w) false Hh53)
    as (mh & eh & -> & Heh & _ & Hmh & Hmhr).
  destruct (FloatFacts.binary_normalize_exact w false Hw53)
    as (mw & ew & -> & Hew & _ & Hmw & Hmwr).
  destruct (FloatFacts.binary_normalize_exact k false Hk53)
    as (mk & ek & -> & Hek & _ & Hmk & Hmkr).
  unfold SFdiv, SFdiv_core_binary.
  rewrite (FloatFacts.Zdigits2_unique mh 53), (FloatFacts.Zdigits2_unique mw 53)
    by assumption.
  replace (53 + eh - (53 + ew)) with (eh - ew) by lia.
  rewrite FloatFacts.fexp_normal by lia.
  replace (Z.min (eh - ew - 53) (eh - ew)) with (eh - ew - 53) by lia.
  replace (eh - ew - (eh - ew - 53)) with 53 by lia.
  cbv beta iota zeta.
  rewrite Z.shiftl_mul_pow2 by lia.
  set (t := 53 - eh + ew).
  assert (Ht : 1 <= t) by (unfold t; lia).
  assert (HA : 0 < 2 ^ (- eh)) by (apply Z.pow_pos_nonneg; lia).
  assert (HB : 0 < 2 ^ (- ew)) by (apply Z.pow_pos_nonneg; lia).
  assert (HC : 0 < 2 ^ (- ek)) by (apply Z.pow_pos_nonneg; lia).
  assert (HT : 0 < 2 ^ t) by (apply Z.pow_pos_nonneg; lia).
  assert (Hq : Z.pos mh * 2 ^ 53 = k * 2 ^ t * Z.pos mw).
  { rewrite Hmh, Hmw.
    replace (k * w * 2 ^ (- eh) * 2 ^ 53) with (k * w * (2 ^ (- eh) * 2 ^ 53)) by ring.
    replace (k * 2 ^ t * (w * 2 ^ (- ew))) with (k * w * (2 ^ t * 2 ^ (- ew))) by ring.
    rewrite <- !Z.pow_add_r by lia. f_equal. f_equal. unfold t. lia. }
  assert (Hqlo : 2 ^ 52 < k * 2 ^ t).
  { apply FloatFacts.pow2_cancel_lt with (u := Z.pos mw); [lia|].
    rewrite <- Hq.
    apply Z.lt_le_trans with (2 ^ 52 * 2 ^ 53).
    - apply Z.mul_lt_mono_pos_l; lia.
    - apply Z.mul_le_mono_nonneg_r; lia. }
  set (n := t + ek).
  assert (Hn : 0 <= n).
  { destruct (Z_lt_le_dec n 0) as [Hneg|]; [exfalso | assumption].
    unfold n in Hneg.
    assert (Hle : 2 ^ t <= 2 ^ (- ek - 1)) by (apply Z.pow_le_mono_r; lia).
    assert (Hhalf : 2 ^ (- ek) = 2 * 2 ^ (- ek - 1)).
    { rewrite <- Z.pow_succ_r by lia. f_equal. lia. }
    assert (Hkle : k * 2 ^ t <= k * 2 ^ (- ek - 1))
      by (apply Z.mul_le_mono_nonneg_l; lia).
    rewrite Hhalf in Hmk. lia. }
  assert (Hqk : k * 2 ^ t = Z.pos mk * 2 ^ n).
  { rewrite Hmk. replace (k * 2 ^ (- ek) * 2 ^ n) with (k * (2 ^ (- ek) * 2 ^ n)) by ring.
    rewrite <- Z.pow_add_r by lia. f_equal. f_equal. unfold n. lia. }
  rewrite (surjective_pairing (Z.div_eucl (Z.pos mh * 2 ^ 53) (Z.pos mw))).
  change (fst (Z.div_eucl (Z.pos mh * 2 ^ 53) (Z.pos mw)))
    with (Z.pos mh * 2 ^ 53 / Z.pos mw).
  change (snd (Z.div_eucl (Z.pos mh * 2 ^ 53) (Z.pos mw)))
    with ((Z.pos mh * 2 ^ 53) mod Z.pos mw).
  rewrite Hq, Z.div_mul, Z.mod_mul by lia.
  assert (Hloc : new_location (Z.pos mw) 0 = loc_Exact).
  { unfold new_location. destruct (Z.even (Z.pos mw)); reflexivity. }
  rewrite Hloc. simpl xorb.
  destruct (k * 2 ^ t) as [|pq|pq] eqn:Epq; try lia.
  rewrite (binary_round_aux_exact_shift false pq mk (eh - ew - 53) n Hmkr Hn);
    [f_equal; unfold n, t; lia | unfold n, t; lia | exact Hqk].
Qed.

(** The product of the floats of [a] and 200 is the float of [200 * a]. *)
Lemma float_mul_200_exact (a : Z) :
  0 < a -> 200 * a < 2 ^ 53 ->
  SFmul 53 1024 (binary_normalize 53 1024 a 0 false)
    (S754_finite false (200 * 2 ^ 45) (-45))
  = binary_normalize 53 1024 (200 * a) 0 false.
Proof.
  intros Ha H200.
  assert (Ha53 : 0 < a < 2 ^ 53) by lia.
  assert (Hp53 : 0 < 200 * a < 2 ^ 53) by lia.
  destruct (FloatFacts.binary_normalize_exact a false Ha53)
    as (ma & ea & -> & Hea & _ & Hma & Hmar).
  destruct (FloatFacts.binary_normalize_exact (200 * a) false Hp53)
    as (mp & ep & -> & Hep & _ & Hmp & Hmpr).
  unfold SFmul. simpl xorb.
  assert (Hmc : Z.pos (200 * 2 ^ 45) = 200 * 2 ^ 45) by reflexivity.
  assert (HA : 0 < 2 ^ (- ea)) by (apply Z.pow_pos_nonneg; lia).
  assert (HP : 0 < 2 ^ (- ep)) by (apply Z.pow_pos_nonneg; lia).
  set (n := 45 - ea + ep).
  assert (Hprod : Z.pos (ma * (200 * 2 ^ 45)) = 200 * a * 2 ^ (45 - ea)).
  { rewrite Pos2Z.inj_mul, Hmc, Hma.
    replace (45 - ea) with (- ea + 45) by lia. rewrite Z.pow_add_r by lia. ring. }
  assert (Hn : 0 <= n).
  { destruct (Z_lt_le_dec n 0) as [Hneg|]; [exfalso | assumption].
    unfold n in Hneg.
    assert (Hle : 2 ^ (45 - ea) <= 2 ^ (- ep - 1)) by (apply Z.pow_le_mono_r; lia).
    assert (Hhalf : 2 ^ (- ep) = 2 * 2 ^ (- ep - 1)).
    { rewrite <- Z.pow_succ_r by lia. f_equal. lia. }
    assert (Hkle : 200 * a * 2 ^ (45 - ea) <= 200 * a * 2 ^ (- ep - 1))
      by (apply Z.mul_le_mono_nonneg_l; lia).
    assert (Hbig : 2 ^ 52 * (200 * 2 ^ 45) <= Z.pos ma * (200 * 2 ^ 45))
      by (apply Z.mul_le_mono_nonneg_r; lia).
    rewrite Pos2Z.inj_mul, Hmc in Hprod. rewrite Hhalf in Hmp. lia. }
  rewrite (binary_round_aux_exact_shift false (ma * (200 * 2 ^ 45)) mp (ea + -45) n
             Hmpr Hn).
  - f_equal. unfold n. lia.
  - unfold n. lia.
  - rewrite Hprod, Hmp.
    replace (200 * a * 2 ^ (- ep) * 2 ^ n) with (200 * a * (2 ^ (- ep) * 2 ^ n)) by ring.
    rewrite <- Z.pow_add_r by lia. f_equal. f_equal. unfold n. lia.
Qed.

Lemma Zceil_float_of_int (c : Z) (m : positive) (e : Z) :
  -52 <= e <= 0 -> Z.pos m = c * 2 ^ (- e) ->
  Go.Zceil_float (S754_finite false m e) = c.
Proof.
  intros He Hm. unfold Go.Zceil_float. rewrite Hm.
  destruct (0 <=? e) eqn:E.
  - apply Z.leb_le in E. replace e with 0 by lia. simpl. lia.
  - replace (- (c * 2 ^ (- e))) with (- c * 2 ^ (- e)) by ring.
    rewrite Z.div_mul; [lia|]. apply Z.pow_nonzero; lia.
Qed.

Section WithEnv.
Context `{Env}.

Lemma dstHeight_of_multiple (w k : Z) :
  0 < w -> 0 < k -> k * w < 2 ^ 53 -> 200 * k < 2 ^ 53 ->
  dstHeight_of w (k * w) 200 = 200 * k.
Proof.
  intros Hw Hk Hkw H200.
  unfold dstHeight_of, ratio_of, Go.fmul, Go.fdiv, Go.float64_of_int, Go.prec, Go.emax.
  rewrite FloatFacts.float64_200, (float_div_exact w k Hw Hk Hkw).
  rewrite (float_mul_200_exact k Hk H200).
  assert (Hp53 : 0 < 200 * k < 2 ^ 53) by lia.
  destruct (FloatFacts.binary_normalize_exact (200 * k) false Hp53)
    as (mp & ep & -> & Hep & _ & Hmp & _).
  pose proof (Zceil_float_of_int (200 * k) mp ep Hep Hmp) as Hc.
  rewrite FloatFacts.int_of_Ceil by (rewrite Hc; lia).
  exact Hc.
Qed.

End WithEnv.

End ExactFacts.

(** X14: when the width divides the height the float arithmetic is exact:
    a source of width [w] and height [k * w] gets the preview height
    [200 * k]; a square source gets a 200 by 200 preview. *)
Theorem preview_height_exact_for_multiples `{Env} (w k : Z) :
  0 < w -> 0 < k -> k * w < 2 ^ 53 -> 200 * k < 2 ^ 53 ->
  dstHeight_of w (k * w) 200 = 200 * k
  /\ dstHeight_of w w 200 = 200.
Proof.
  intros Hw Hk Hkw H200. split.
  - apply ExactFacts.dstHeight_of_multiple; assumption.
  - assert (Hw53 : 1 * w < 2 ^ 53) by nia.
    pose proof (ExactFacts.dstHeight_of_multiple w 1 Hw ltac:(lia) Hw53 ltac:(lia))
      as Hsq.
    rewrite Z.mul_1_l in Hsq. exact Hsq.
Qed.

Lemma preview_height_exact_for_multiples_witness :
  dstHeight_of (H := TermLib.env) 100 (3 * 100) 200 = 200 * 3
  /\ dstHeight_of (H := TermLib.env) 100 100 200 = 200.
Proof.
  apply (preview_height_exact_for_multiples (H := TermLib.env) 100 3); lia.
Defined.

(** ** Ids built from a name and a counter *)

Module NameFacts.

Lemma pretty_N_char_digit (x : N) : is_digit (pretty_N_char x) = true.
Proof. unfold pretty_N_char. repeat case_match; reflexivity. Qed.

Lemma pretty_N_go_digits (x : N) (s : string) :
  all_digits s = true -> all_digits (pretty_N_go x s) = true.
Proof.
  revert s. induction (N.lt_wf_0 x) as [x _ IH]; intros s Hs.
  destruct (decide (0 < x)%N) as [Hx|Hx].
  - rewrite pretty_N_go_step by exact Hx. apply IH.
    + apply N.div_lt; [exact Hx | reflexivity].
    + simpl. rewrite pretty_N_char_digit. exact Hs.
  - replace x with 0%N by lia. rewrite pretty_N_go_0. exact Hs.
Qed.

Lemma Itoa_digits (c : Z) : 0 <= c -> all_digits (Go.Itoa c) = true.
Proof.
  intros Hc. unfold Go.Itoa, pretty, pretty_Z.
  destruct c as [|p|p]; [reflexivity | | lia].
  unfold pretty, pretty_positive, pretty, pretty_N.
  destruct (decide (N.pos p = 0%N)); [reflexivity|].
  apply pretty_N_go_digits. reflexivity.
Qed.

Lemma all_digits_app_l (x y : string) :
  all_digits (x +:+ y) = true -> all_digits x = true.
Proof.
  induction x as [|c x IH]; simpl; [reflexivity|].
  intros Hd. apply andb_true_iff in Hd as [Hc Hx].
  rewrite Hc. apply IH, Hx.
Qed.

Lemma all_digits_ends (c : ascii) (x : string) :
  all_digits (String c x) = true -> ends_in_digit (String c x) = true.
Proof.
  revert c. induction x as [|c' x IH]; intros c Hd; simpl in Hd.
  - simpl. apply andb_true_iff in Hd as [Hc _]. exact Hc.
  - apply andb_true_iff in Hd as [_ Hd].
    change (ends_in_digit (String c' x) = true). apply IH. exact Hd.
Qed.

Lemma ends_in_digit_tail (c : ascii) (x : string) :
  ends_in_digit (String c x) = false -> ends_in_digit x = false.
Proof. destruct x as [|c' x]; [reflexivity | intros Hx; exact Hx]. Qed.

(** A name that does not end in a digit, followed by digits, determines
    both parts. *)
Lemma append_digits_inj (a a' d d' : string) :
  ends_in_digit a = false -> ends_in_digit a' = false ->
  all_digits d = true -> all_digits d' = true ->
  a +:+ d = a' +:+ d' -> a = a' /\ d = d'.
Proof.
  revert a'. induction a as [|c a IH]; intros a' Ha Ha' Hd Hd' Heq.
  - destruct a' as [|c' a']; [split; [reflexivity | exact Heq]|]. exfalso.
    change (d = String c' a' +:+ d') in Heq. rewrite Heq in Hd.
    apply all_digits_app_l, all_digits_ends in Hd. congruence.
  - destruct a' as [|c' a'].
    + exfalso. change (String c a +:+ d = d') in Heq. rewrite <- Heq in Hd'.
      apply all_digits_app_l, all_digits_ends in Hd'. congruence.
    + change (String c (a +:+ d) = String c' (a' +:+ d')) in Heq.
      injection Heq as -> Heq.
      destruct (IH a' (ends_in_digit_tail _ _ Ha) (ends_in_digit_tail _ _ Ha')
                  Hd Hd' Heq) as [-> ->].
      split; reflexivity.
Qed.

Lemma plain_id_inj (n1 n2 : string) (c1 c2 : Z) :
  ends_in_digit n1 = false -> ends_in_digit n2 = false ->
  0 <= c1 -> 0 <= c2 ->
  n1 +:+ Go.Itoa c1 = n2 +:+ Go.Itoa c2 -> n1 = n2 /\ c1 = c2.
Proof.
  intros H1 H2 Hc1 Hc2 Heq.
  destruct (append_digits_inj n1 n2 _ _ H1 H2 (Itoa_digits c1 Hc1)
              (Itoa_digits c2 Hc2) Heq) as [Hn Hc].
  split; [exact Hn | apply Itoa_inj, Hc].
Qed.

Section WithEnv.
Context `{Env}.

Import Main.

Lemma Update_loop_Ids (effs : list Effect) (id : string) (v : Go.float64) :
  map Id (Update_loop effs id v) = map Id effs.
Proof.
  induction effs as [|eff effs IH]; simpl; [reflexivity|].
  destruct (String.eqb (Id eff) id); simpl; congruence.
Qed.

Lemma listener_ids_fresh_add (app : App) (selected : string) :
  listener_ids_fresh app -> cnt app < Go.int_max -> ends_in_digit selected = false ->
  listener_ids_fresh (addEffectBtnClickListener app selected)
  /\ cnt (addEffectBtnClickListener app selected) = cnt app + 1.
Proof.
  intros (Hc & Hnd & Hids) Hmax Hsel.
  assert (Hincr : Go.int_incr (cnt app) = cnt app + 1)
    by (apply int_incr_small; lia).
  unfold addEffectBtnClickListener, Append, listener_ids_fresh. simpl.
  rewrite Hincr. split; [|reflexivity].
  rewrite map_app. simpl. split; [lia|]. split.
  - apply NoDup_app. split; [exact Hnd|]. split.
    + intros id Hin Hnew. apply list_elem_of_In in Hin.
      apply list_elem_of_In in Hnew. destruct Hnew as [<- | []].
      destruct (Hids _ Hin) as (n & c & Heq & Hn & Hrange).
      apply plain_id_inj in Heq as [_ Heq]; try assumption; lia.
    + apply NoDup_singleton.
  - intros id Hin. apply in_app_or in Hin as [Hin | [<- | []]].
    + destruct (Hids _ Hin) as (n & c & Heq & Hn & Hrange).
      exists n, c. repeat split; try assumption; lia.
    + exists selected, (cnt app + 1). repeat split; try assumption; lia.
Qed.

Lemma listener_ids_fresh_session (evs : list event) (app : App) :
  listener_ids_fresh app ->
  cnt app + Z.of_nat (length evs) <= Go.int_max ->
  forallb plain_name evs = true ->
  listener_ids_fresh (fold_left listener_handle evs app).
Proof.
  revert app. induction evs as [|ev evs IH]; intros app Hfresh Hlen Hoff.
  - exact Hfresh.
  - simpl in Hoff. apply andb_true_iff in Hoff as [Hev Hoff].
    simpl fold_left. simpl length in Hlen.
    destruct ev as [dataURL | selected | id v]; simpl listener_handle.
    + destruct (LoaderFacts.load_frame app dataURL) as (He & Hcnt & _).
      apply IH; [| rewrite Hcnt; lia | exact Hoff].
      unfold listener_ids_fresh. rewrite He, Hcnt. exact Hfresh.
    + simpl in Hev. apply negb_true_iff in Hev.
      destruct (listener_ids_fresh_add app selected Hfresh) as [Hf Hcnt];
        [lia | exact Hev |].
      apply IH; [exact Hf | rewrite Hcnt; lia | exact Hoff].
    + apply IH; [| simpl; lia | exact Hoff].
      unfold listener_ids_fresh, Update. simpl.
      rewrite Update_loop_Ids. exact Hfresh.
Qed.

End WithEnv.

End NameFacts.

(** X15: in the revision of [main.go] whose listeners work on the [*App],
    the ids of a session are pairwise distinct, provided no selected name
    ends in a digit and the counter does not wrap (fewer than 2^63 events):
    the listener reads the counter it has just incremented. *)
Theorem listener_ids_distinct `{Env} (evs : list event) (i j : nat)
    (e e' : Main.Effect) :
  Z.of_nat (length evs) <= Go.int_max ->
  forallb plain_name evs = true ->
  Main.effects (listener_session evs) !! i = Some e ->
  Main.effects (listener_session evs) !! j = Some e' ->
  i <> j ->
  Main.Id e <> Main.Id e'.
Proof.
  intros Hlen Hplain Hi Hj Hij Heq.
  destruct (NameFacts.listener_ids_fresh_session evs Main.NewApp) as (_ & Hnd & _);
    [| simpl; lia | exact Hplain |].
  { split; [simpl; lia|]. split; [constructor | intros id []]. }
  apply Hij.
  apply (NoDup_lookup _ i j (Main.Id e) Hnd).
  - rewrite list_lookup_fmap. unfold listener_session in Hi. rewrite Hi. reflexivity.
  - rewrite list_lookup_fmap. unfold listener_session in Hj. rewrite Hj, Heq.
    reflexivity.
Qed.

Lemma listener_ids_distinct_witness :
  Main.Id (Main.new_Effect "contrast" 1) <> Main.Id (Main.new_Effect "contrast" 2).
Proof.
  apply (listener_ids_distinct (H := TermLib.env)
           [AddEffect "contrast"; AddEffect "contrast"] 0 1).
  - vm_compute. discriminate.
  - reflexivity.
  - reflexivity.
  - reflexivity.
  - discriminate.
Defined.

(** X16: in the catalog revision the ids of a session are pairwise
    distinct, provided every selection is a kind of the catalog and the
    counter does not wrap. *)
Theorem catalog_ids_distinct `{Env} (evs : list event) (i j : nat)
    (t t' : Catalog.Transformation) :
  Z.of_nat (length evs) <= Go.int_max ->
  forallb offered evs = true ->
  Catalog.transformations (catalog_session evs) !! i = Some t ->
  Catalog.transformations (catalog_session evs) !! j = Some t' ->
  i <> j ->
  Catalog.Id t <> Catalog.Id t'.
Proof.
  intros Hlen Hoff Hi Hj Hij Heq.
  pose proof (IdFacts.ids_fresh_session evs Catalog.NewApp IdFacts.ids_fresh_NewApp)
    as Hfresh.
  destruct Hfresh as (_ & Hnd & _); [simpl; lia | exact Hoff |].
  apply Hij.
  apply (NoDup_lookup _ i j (Catalog.Id t) Hnd).
  - rewrite list_lookup_fmap. unfold catalog_session in Hi. rewrite Hi. reflexivity.
  - rewrite list_lookup_fmap. unfold catalog_session in Hj. rewrite Hj, Heq.
    reflexivity.
Qed.

Lemma catalog_ids_distinct_witness :
  Catalog.Id (Catalog.new_Transformation (H := TermLib.env) "contrast" 1)
  <> Catalog.Id (Catalog.new_Transformation (H := TermLib.env) "brightness" 2).
Proof.
  apply (catalog_ids_distinct (H := TermLib.env)
           [AddEffect "contrast"; AddEffect "brightness"] 0 1).
  - vm_compute. discriminate.
  - reflexivity.
  - reflexivity.
  - reflexivity.
  - discriminate.
Defined.

(** ** The pipeline of the catalog revision, continued *)

Module CatalogPipelineFacts.

Section WithEnv.
Context `{Env}.

Import Catalog.

Lemma catalog_Update_loop_insert (ts : list Transformation) (i : nat) (t : Transformation)
    (values : list Go.float64) :
  ts !! i = Some t ->
  (forall j t', (j < i)%nat -> ts !! j = Some t' -> Id t' <> Id t) ->
  Update_loop ts (Id t) values = <[i := set_Values t values]> ts.
Proof.
  revert i. induction ts as [|a ts IH]; intros i Hi Hfirst.
  - discriminate.
  - destruct i as [|i]; simpl in *.
    + injection Hi as ->. rewrite String.eqb_refl. reflexivity.
    + destruct (String.eqb (Id a) (Id t)) eqn:E.
      * apply String.eqb_eq in E. exfalso.
        apply (Hfirst 0%nat a); [lia | reflexivity | exact E].
      * f_equal. apply IH; [exact Hi|].
        intros j t' Hj Ht'. apply (Hfirst (S j) t'); [lia | exact Ht'].
Qed.

Lemma catalog_Update_loop_absent (ts : list Transformation) (id : string)
    (values : list Go.float64) :
  (forall t, In t ts -> Id t <> id) -> Update_loop ts id values = ts.
Proof.
  induction ts as [|t ts IH]; intros Habs; simpl; [reflexivity|].
  destruct (String.eqb (Id t) id) eqn:E.
  - apply String.eqb_eq in E. exfalso. apply (Habs t); simpl; auto.
  - f_equal. apply IH. intros t' Ht'. apply Habs. simpl; auto.
Qed.

Lemma catalog_Update_loop_labels (ts : list Transformation) (id : string)
    (values : list Go.float64) :
  map (fun t => (Id t, effect t)) (Update_loop ts id values)
  = map (fun t => (Id t, effect t)) ts.
Proof.
  induction ts as [|t ts IH]; simpl; [reflexivity|].
  destruct (String.eqb (Id t) id); simpl; congruence.
Qed.

Lemma catalog_PreviewImg_loop_app (l1 l2 : list Transformation) (img : Image) :
  PreviewImg_loop (l1 ++ l2) img =
  match PreviewImg_loop l1 img with
  | Done img' => PreviewImg_loop l2 img'
  | Panic why => Panic why
  end.
Proof.
  revert img. induction l1 as [|t l1 IH]; intros img; simpl; [reflexivity|].
  destruct (Transform t) as [fn|]; [|reflexivity].
  destruct (fn img) as [img'|why]; [apply IH | reflexivity].
Qed.

Lemma PreviewImg_loop_sound (ts : list Transformation) (img : Image) :
  Forall sound ts -> exists img', PreviewImg_loop ts img = Done img'.
Proof.
  intros Hs. eexists.
  apply CatalogFacts.catalog_PreviewImg_loop_registered.
  - eapply Forall_impl; [exact Hs | intros t [Hwf _]; exact Hwf].
  - apply forallb_forall. intros t Ht.
    rewrite Forall_forall in Hs. apply Hs. apply list_elem_of_In. exact Ht.
Qed.

Lemma step_no_values (t : Transformation) (img : Image) :
  sound t -> catalog_fold_step (Done img) (set_Values t []) = Panic IndexOutOfRange.
Proof.
  intros [[Hfn _] Hreg]. unfold catalog_fold_step, Transform. simpl. rewrite Hfn.
  unfold GetEffectFn. unfold registered_catalog in Hreg.
  destruct (String.eqb (Name (effect t)) "brightness"); [reflexivity|].
  destruct (String.eqb (Name (effect t)) "contrast"); [reflexivity|].
  destruct (String.eqb (Name (effect t)) "edge-detection"); [reflexivity|].
  discriminate.
Qed.

Lemma step_first_value (t : Transformation) (img : Image) (v : Go.float64)
    (rest : list Go.float64) :
  Fn t = GetEffectFn (effect t) ->
  catalog_fold_step (Done img) (set_Values t (v :: rest))
  = catalog_fold_step (Done img) (set_Values t [v]).
Proof.
  intros Hfn. unfold catalog_fold_step, Transform. simpl. rewrite Hfn.
  unfold GetEffectFn.
  destruct (String.eqb (Name (effect t)) "brightness"); [reflexivity|].
  destruct (String.eqb (Name (effect t)) "contrast"); [reflexivity|].
  destruct (String.eqb (Name (effect t)) "edge-detection"); reflexivity.
Qed.

Lemma fold_cons (t : Transformation) (ts : list Transformation) (img : Image) :
  PreviewImg_loop (t :: ts) img
  = fold_left catalog_fold_step ts (catalog_fold_step (Done img) t).
Proof. rewrite CatalogFacts.catalog_PreviewImg_loop_fold. reflexivity. Qed.

Lemma PreviewImg_loop_first_value (ts : list Transformation) (id : string)
    (v : Go.float64) (rest : list Go.float64) (img : Image) :
  Forall (fun t => Fn t = GetEffectFn (effect t)) ts ->
  PreviewImg_loop (Update_loop ts id (v :: rest)) img
  = PreviewImg_loop (Update_loop ts id [v]) img.
Proof.
  intros Hwf. revert img. induction Hwf as [|t ts Ht Hts IH]; intros img.
  - reflexivity.
  - simpl Update_loop. destruct (String.eqb (Id t) id).
    + rewrite !fold_cons, (step_first_value t img v rest Ht). reflexivity.
    + simpl. destruct (Transform t) as [fn|]; [|reflexivity].
      destruct (fn img) as [img'|why]; [apply IH | reflexivity].
Qed.

Lemma catalog_session_names_from (evs : list event) (app : App) :
  map (fun t => Name (effect t)) (transformations (fold_left catalog_handle evs app))
  = map (fun t => Name (effect t)) (transformations app) ++ selected_names evs.
Proof.
  revert app. induction evs as [|ev evs IH]; intros app.
  - simpl. rewrite app_nil_r. reflexivity.
  - simpl fold_left. rewrite IH.
    destruct ev as [dataURL | selected | id v]; simpl.
    + unfold UploadCallback.
      destruct (IdFacts.catalog_load_frame app dataURL) as [-> _]. reflexivity.
    + rewrite map_app, <- app_assoc. reflexivity.
    + f_equal.
      pose proof (catalog_Update_loop_labels (transformations app) id [v]) as Hl.
      apply (f_equal (map (fun p => Name (snd p)))) in Hl.
      rewrite !map_map in Hl. exact Hl.
Qed.

Lemma session_well_formed (evs : list event) (app : App) :
  Forall well_formed (transformations app) ->
  Forall well_formed (transformations (fold_left catalog_handle evs app)).
Proof.
  revert app. induction evs as [|ev evs IH]; intros app Hwf; [exact Hwf|].
  simpl fold_left. apply IH.
  destruct ev as [dataURL | selected | id v]; simpl catalog_handle.
  - unfold UploadCallback.
    destruct (IdFacts.catalog_load_frame app dataURL) as [-> _]. exact Hwf.
  - apply CatalogFacts.AddEffectCallback_well_formed, Hwf.
  - apply CatalogFacts.ChangeEffectsCallback_well_formed, Hwf.
Qed.

Lemma session_Effects (evs : list event) (app : App) :
  Effects (fold_left catalog_handle evs app) = Effects app.
Proof.
  revert app. induction evs as [|ev evs IH]; intros app; [reflexivity|].
  simpl fold_left. rewrite IH.
  destruct ev as [dataURL | selected | id v]; simpl; try reflexivity.
  unfold UploadCallback, NewSourceImgFromString.
  destruct (Main.strip_prefix dataURL) as [payload|]; [|reflexivity].
  destruct (image_Decode payload) as [img [err|]]; reflexivity.
Qed.

End WithEnv.

End CatalogPipelineFacts.

(** X17: [Update] is variadic, and a call with no value at all is not
    rejected: it stores the empty list, and the next rendering of a loaded
    image, the bild calls returning images, panics with an index out of
    range when it reaches that transformation, the closures reading
    [values[0]] only when they run. *)
Theorem catalog_update_no_value_panics `{Env} (app : Catalog.App) (i : nat)
    (t : Catalog.Transformation) :
  library_returns_images ->
  Catalog.resizedImg app <> nilImage ->
  Forall sound (Catalog.transformations app) ->
  Catalog.transformations app !! i = Some t ->
  (forall j t', (j < i)%nat -> Catalog.transformations app !! j = Some t' ->
                Catalog.Id t' <> Catalog.Id t) ->
  Catalog.transformations (Catalog.Update app (Catalog.Id t) [])
  = <[i := Catalog.set_Values t []]> (Catalog.transformations app)
  /\ Catalog.PreviewImg (Catalog.Update app (Catalog.Id t) []) = Panic IndexOutOfRange.
Proof.
  intros _ _ Hs Hi Hfirst.
  assert (Hupd : Catalog.transformations (Catalog.Update app (Catalog.Id t) [])
                 = <[i := Catalog.set_Values t []]> (Catalog.transformations app)).
  { simpl. apply CatalogPipelineFacts.catalog_Update_loop_insert; assumption. }
  split; [exact Hupd|].
  assert (Hlt : (i < length (Catalog.transformations app))%nat)
    by (eapply lookup_lt_Some; exact Hi).
  unfold Catalog.PreviewImg. rewrite Hupd. simpl Catalog.resizedImg.
  rewrite insert_take_drop by exact Hlt.
  rewrite CatalogPipelineFacts.catalog_PreviewImg_loop_app.
  destruct (CatalogPipelineFacts.PreviewImg_loop_sound
              (take i (Catalog.transformations app)) (Catalog.resizedImg app))
    as [img' ->].
  { apply Forall_take, Hs. }
  rewrite CatalogPipelineFacts.fold_cons, CatalogPipelineFacts.step_no_values.
  - apply CatalogFacts.catalog_fold_step_Panic.
  - rewrite Forall_forall in Hs. apply Hs. apply list_elem_of_lookup. eauto.
Qed.

Lemma catalog_update_no_value_panics_witness :
  let app := catalog_session [Upload "data:image/png;base64,4x3";
                              AddEffect "contrast"; AddEffect "brightness"] in
  Catalog.PreviewImg (Catalog.Update app "brightness2" []) = Panic IndexOutOfRange.
Proof.
  intros app.
  refine (proj2 (catalog_update_no_value_panics (H := TermLib.env) app 1
                   (Catalog.new_Transformation "brightness" 2) _ _ _ _ _)).
  - intros img v _. repeat split; discriminate.
  - vm_compute. discriminate.
  - repeat constructor.
  - reflexivity.
  - intros j t' Hj Ht'. destruct j as [|j]; [|lia].
    vm_compute in Ht'. injection Ht' as <-. vm_compute. discriminate.
Defined.

(** X18: of the values passed to [Update] only the first one counts: for
    transformations built by the callbacks, rendering after an update with
    several values is rendering after the update with the first alone. *)
Theorem catalog_update_uses_first_value `{Env} (app : Catalog.App) (id : string)
    (v : Go.float64) (rest : list Go.float64) :
  Forall well_formed (Catalog.transformations app) ->
  Catalog.PreviewImg (Catalog.Update app id (v :: rest))
  = Catalog.PreviewImg (Catalog.Update app id [v]).
Proof.
  intros Hwf. unfold Catalog.PreviewImg. simpl.
  apply CatalogPipelineFacts.PreviewImg_loop_first_value.
  eapply Forall_impl; [exact Hwf | intros t [Hfn _]; exact Hfn].
Qed.

Lemma catalog_update_uses_first_value_witness :
  let app := catalog_session [AddEffect "contrast"] in
  Catalog.PreviewImg
    (Catalog.Update app "contrast1" [Go.float64_of_int 1; Go.float64_of_int 7])
  = Catalog.PreviewImg (Catalog.Update app "contrast1" [Go.float64_of_int 1]).
Proof.
  intros app.
  apply (catalog_update_uses_first_value (H := TermLib.env) app).
  repeat constructor.
Defined.

(** X19: the catalog and the effect functions agree.  Every kind the
    selector is rendered from, in every state of a session, has an effect
    function; the kinds of the pipeline are the names selected, in click
    order; and once a preview is loaded, the bild calls returning images,
    [PreviewImg] returns an image exactly when every selected name is a
    kind of the catalog. *)
Theorem catalog_session_renders_iff_offered `{Env} (evs : list event) :
  Forall (fun eff => registered_catalog (Catalog.Name eff) = true)
    (Catalog.Effects (catalog_session evs))
  /\ map (fun t => Catalog.Name (Catalog.effect t))
       (Catalog.transformations (catalog_session evs))
     = selected_names evs
  /\ (library_returns_images ->
      Catalog.resizedImg (catalog_session evs) <> nilImage ->
      ((exists img, Catalog.PreviewImg (catalog_session evs) = Done img
                    /\ img <> nilImage)
       <-> forallb registered_catalog (selected_names evs) = true)).
Proof.
  assert (Hnames : map (fun t => Catalog.Name (Catalog.effect t))
                     (Catalog.transformations (catalog_session evs))
                   = selected_names evs).
  { unfold catalog_session.
    rewrite CatalogPipelineFacts.catalog_session_names_from. reflexivity. }
  assert (Hwf : Forall well_formed (Catalog.transformations (catalog_session evs))).
  { apply CatalogPipelineFacts.session_well_formed. constructor. }
  assert (Hall : forallb (fun t => registered_catalog (Catalog.Name (Catalog.effect t)))
                   (Catalog.transformations (catalog_session evs))
                 = forallb registered_catalog (selected_names evs)).
  { rewrite <- Hnames.
    generalize (Catalog.transformations (catalog_session evs)). intros l.
    induction l as [|a l IH]; simpl; [reflexivity | rewrite IH; reflexivity]. }
  split; [|split].
  - unfold catalog_session. rewrite CatalogPipelineFacts.session_Effects.
    repeat constructor.
  - exact Hnames.
  - intros Hlib Himg. rewrite <- Hall. unfold Catalog.PreviewImg. split.
    + intros (img & Hdone & _).
      destruct (forallb _ (Catalog.transformations (catalog_session evs)))
        eqn:E; [reflexivity|].
      apply (CatalogFacts.catalog_PreviewImg_loop_panics _
               (Catalog.resizedImg (catalog_session evs)) Hwf) in E.
      congruence.
    + intros E. apply ImageFacts.catalog_PreviewImg_loop_image; assumption.
Qed.

Lemma catalog_session_renders_iff_offered_witness :
  let evs := [Upload "data:image/png;base64,4x3"; AddEffect "edge-detection";
              ChangeEffect "edge-detection1" (Go.float64_of_int 1)] in
  (exists img, Catalog.PreviewImg (catalog_session evs) = Done img
               /\ img <> nilImage)
  <-> forallb registered_catalog (selected_names evs) = true.
Proof.
  intros evs.
  apply (proj2 (proj2 (catalog_session_renders_iff_offered (H := TermLib.env) evs))).
  - intros img v _. repeat split; discriminate.
  - vm_compute. discriminate.
Defined.

(** X20: in the catalog revision too [Update] only ever writes values.
    The pipeline keeps its length and order, every transformation its id
    and its effect, and an id that is not in the pipeline changes nothing
    at all. *)
Theorem catalog_update_keeps_shape `{Env} (app : Catalog.App) (id : string)
    (values : list Go.float64) :
  map (fun t => (Catalog.Id t, Catalog.effect t))
    (Catalog.transformations (Catalog.Update app id values))
  = map (fun t => (Catalog.Id t, Catalog.effect t)) (Catalog.transformations app)
  /\ length (Catalog.transformations (Catalog.Update app id values))
     = length (Catalog.transformations app)
  /\ ((forall t, In t (Catalog.transformations app) -> Catalog.Id t <> id) ->
      Catalog.Update app id values = app).
Proof.
  assert (Hl : map (fun t => (Catalog.Id t, Catalog.effect t))
                 (Catalog.transformations (Catalog.Update app id values))
               = map (fun t => (Catalog.Id t, Catalog.effect t))
                   (Catalog.transformations app))
    by apply CatalogPipelineFacts.catalog_Update_loop_labels.
  split; [exact Hl|]. split.
  - apply (f_equal (@length _)) in Hl. rewrite !length_map in Hl. exact Hl.
  - intros Habs. destruct app as [c w s r effs ts].
    unfold Catalog.Update, Catalog.set_transformations. simpl in *. f_equal.
    apply CatalogPipelineFacts.catalog_Update_loop_absent, Habs.
Qed.

(** ** What the page shows *)

Module DomFacts.

Section WithShell.
Context `{Shell}.

Import Dom.

Lemma UpdateImgSrcById_jsa (w : World) (Id : string) (img : Image) :
  jsa (UpdateImgSrcById w Id img) = jsa w.
Proof.
  unfold UpdateImgSrcById. destruct (is_nil img); [reflexivity|].
  destruct (JPEGEncoder 90 img). reflexivity.
Qed.

Lemma UpdateImgSrcById_buf (w : World) (Id : string) (img : Image) :
  buf w = [] -> buf (UpdateImgSrcById w Id img) = [].
Proof.
  intros Hb. unfold UpdateImgSrcById. destruct (is_nil img); [exact Hb|].
  destruct (JPEGEncoder 90 img). reflexivity.
Qed.

Lemma UpdateImgSrcById_src (w : World) (Id : string) (img : Image) :
  buf w = [] ->
  src (UpdateImgSrcById w Id img)
  = if is_nil img then src w else <[Id := data_url img]> (src w).
Proof.
  intros Hb. unfold UpdateImgSrcById, data_url. destruct (is_nil img); [reflexivity|].
  destruct (JPEGEncoder 90 img) as [written err]. simpl. rewrite Hb. reflexivity.
Qed.

Lemma UpdateImgSrcById_shown (w : World) (Id : string) (img : Image) :
  Id = "previewImg" \/ Id = "targetImg" ->
  shown_ok w -> shown_ok (UpdateImgSrcById w Id img).
Proof.
  intros HId [Hb Hs]. split; [apply UpdateImgSrcById_buf, Hb|].
  rewrite (UpdateImgSrcById_src w Id img Hb).
  destruct (is_nil img); [exact Hs|].
  intros id s Hl. destruct (decide (Id = id)) as [<- | Hne].
  - rewrite lookup_insert_eq in Hl. injection Hl as <-. split; [exact HId|].
    exists img. reflexivity.
  - rewrite lookup_insert_ne in Hl by exact Hne. apply Hs, Hl.
Qed.

Lemma dispatch_jsa (w w' : World) (ev : event) :
  dispatch w ev = Done w' -> jsa w' = handle (jsa w) ev.
Proof.
  destruct ev as [dataURL | selected | id v]; simpl.
  - unfold UploadCallback.
    destruct (Main.PreviewImg _); [|discriminate].
    intros [= <-]. rewrite !UpdateImgSrcById_jsa. reflexivity.
  - unfold AddEffectCallback. intros [= <-]. reflexivity.
  - unfold ChangeEffectsCallback.
    destruct (Main.PreviewImg _); [|discriminate].
    intros [= <-]. rewrite UpdateImgSrcById_jsa. reflexivity.
Qed.

Lemma dispatch_shown (w w' : World) (ev : event) :
  shown_ok w -> dispatch w ev = Done w' -> shown_ok w'.
Proof.
  intros Hs. destruct ev as [dataURL | selected | id v]; simpl.
  - unfold UploadCallback.
    destruct (Main.PreviewImg _); [|discriminate].
    intros [= <-]. apply UpdateImgSrcById_shown; [auto|].
    apply UpdateImgSrcById_shown; [auto|]. exact Hs.
  - unfold AddEffectCallback. intros [= <-]. exact Hs.
  - unfold ChangeEffectsCallback.
    destruct (Main.PreviewImg _); [|discriminate].
    intros [= <-]. apply UpdateImgSrcById_shown; [auto|]. exact Hs.
Qed.

Lemma preview_key_ne : "targetImg" <> "previewImg".
Proof. discriminate. Qed.

Lemma dispatch_preview_in_sync (w w' : World) (ev : event) :
  buf w = [] -> preview_in_sync w -> dispatch w ev = Done w' ->
  preview_in_sync w'.
Proof.
  intros Hb Hp. unfold preview_in_sync in *.
  destruct ev as [dataURL | selected | id v]; simpl.
  - unfold UploadCallback.
    set (w1 := with_jsa w (Main.UploadCallback (jsa w) dataURL)).
    set (r1 := Main.resizedImg (Main.embedded (jsa w1))).
    set (w2 := UpdateImgSrcById w1 "previewImg" r1).
    destruct (Main.PreviewImg (Main.embedded (jsa w2))) as [img|]; [|discriminate].
    intros [= <-].
    assert (Hb2 : buf w2 = []) by (apply UpdateImgSrcById_buf; exact Hb).
    assert (Hsrc2 : src w2 !! "previewImg"
                    = if is_nil r1 then None else Some (data_url r1)).
    { unfold w2. rewrite (UpdateImgSrcById_src w1 "previewImg" r1 Hb).
      destruct (is_nil r1) eqn:Hnil; [|apply lookup_insert_eq].
      (* the load left a nil preview: it failed, and none was shown before *)
      change (src w1) with (src w). unfold r1, w1 in Hnil. simpl in Hnil.
      unfold Main.NewSourceImgFromString in Hnil.
      destruct (Main.strip_prefix dataURL) as [payload|].
      - destruct (image_Decode payload) as [i [err|]]; simpl in Hnil.
        + rewrite Hnil in Hp. exact Hp.
        + rewrite Resize_not_nil in Hnil. discriminate.
      - rewrite Hnil in Hp. exact Hp. }
    assert (Hj2 : jsa w2 = jsa w1) by apply UpdateImgSrcById_jsa.
    rewrite UpdateImgSrcById_jsa, Hj2.
    change (Main.resizedImg (Main.embedded (jsa w1))) with r1.
    rewrite (UpdateImgSrcById_src w2 "targetImg" img Hb2).
    destruct (is_nil img); [exact Hsrc2|].
    rewrite lookup_insert_ne by exact preview_key_ne. exact Hsrc2.
  - unfold AddEffectCallback. intros [= <-]. exact Hp.
  - unfold ChangeEffectsCallback.
    set (w1 := with_jsa w (Main.ChangeEffectsCallback (jsa w) id v)).
    destruct (Main.PreviewImg (Main.embedded (jsa w1))) as [img|]; [|discriminate].
    intros [= <-].
    rewrite UpdateImgSrcById_jsa, (UpdateImgSrcById_src w1 "targetImg" img Hb).
    change (src w1) with (src w).
    change (Main.resizedImg (Main.embedded (jsa w1)))
      with (Main.resizedImg (Main.embedded (jsa w))).
    destruct (is_nil img); [exact Hp|].
    rewrite lookup_insert_ne by exact preview_key_ne. exact Hp.
Qed.

Lemma play_invariant (evs : list event) (w w' : World) :
  shown_ok w -> preview_in_sync w -> play evs w = Done w' ->
  shown_ok w' /\ preview_in_sync w' /\ jsa w' = fold_left handle evs (jsa w).
Proof.
  revert w. induction evs as [|ev evs IH]; intros w Hs Hp; simpl.
  - intros [= <-]. auto.
  - destruct (dispatch w ev) as [w1|] eqn:E; [|discriminate].
    intros Hplay.
    destruct (IH w1) as (Hs' & Hp' & Hj); [| | exact Hplay |].
    + eapply dispatch_shown; eassumption.
    + eapply dispatch_preview_in_sync; [apply Hs | exact Hp | exact E].
    + rewrite (dispatch_jsa w w1 ev E) in Hj. auto.
Qed.

Lemma NewWorld_ok : shown_ok NewWorld /\ preview_in_sync NewWorld.
Proof.
  split.
  - split; [reflexivity|]. intros id s Hl.
    change (src NewWorld) with (∅ : gmap string string) in Hl.
    rewrite lookup_empty in Hl. discriminate.
  - unfold preview_in_sync.
    change (Main.resizedImg (Main.embedded (jsa NewWorld))) with nilImage.
    rewrite is_nil_nilImage. apply lookup_empty.
Qed.

Lemma play_snoc (evs : list event) (ev : event) (w : World) :
  play (evs ++ [ev]) w =
  match play evs w with
  | Done w1 => dispatch w1 ev
  | Panic why => Panic why
  end.
Proof.
  revert w. induction evs as [|e evs IH]; intros w; simpl.
  - destruct (dispatch w ev); reflexivity.
  - destruct (dispatch w e) as [w1|]; [apply IH | reflexivity].
Qed.

End WithShell.

End DomFacts.

(** X21: what the page shows never carries bytes of an earlier
    rendering.  In every session that runs to its end, [buf] is empty
    again, only the elements [previewImg] and [targetImg] have a [src], each
    [src] is the data URL of the encoding of one single image, and the
    state is the one the events alone give: displaying changes nothing. *)
Theorem page_shows_single_encodings `{Shell} (evs : list event) (w : Dom.World) :
  Dom.play evs Dom.NewWorld = Done w ->
  Dom.shown_ok w /\ Dom.jsa w = session evs.
Proof.
  intros Hplay.
  destruct DomFacts.NewWorld_ok as [Hs Hp].
  destruct (DomFacts.play_invariant evs Dom.NewWorld w Hs Hp Hplay) as (Hs' & _ & Hj).
  split; [exact Hs' | exact Hj].
Qed.

Lemma page_shows_single_encodings_witness :
  let evs := [Upload "data:image/png;base64,4x3"; AddEffect "contrast";
              ChangeEffect "contrast0" (Go.float64_of_int 1)] in
  match Dom.play evs Dom.NewWorld with
  | Done w => Dom.shown_ok w /\ Dom.jsa w = session evs
  | Panic _ => False
  end.
Proof.
  intros evs. destruct (Dom.play evs Dom.NewWorld) as [w|why] eqn:E.
  - apply (page_shows_single_encodings evs w E).
  - vm_compute in E. discriminate.
Defined.

(** X22: the element [previewImg] always shows the current base image:
    after every session that runs to its end it has no [src] while no
    image has been resized, and otherwise the data URL of the encoding of
    the current resized image, whatever uploads failed in between. *)
Theorem page_preview_in_sync `{Shell} (evs : list event) (w : Dom.World) :
  Dom.play evs Dom.NewWorld = Done w ->
  Dom.src w !! "previewImg"
  = if is_nil (Main.resizedImg (Main.embedded (session evs))) then None
    else Some (Dom.data_url (Main.resizedImg (Main.embedded (session evs)))).
Proof.
  intros Hplay.
  destruct DomFacts.NewWorld_ok as [Hs Hp].
  destruct (DomFacts.play_invariant evs Dom.NewWorld w Hs Hp Hplay) as (_ & Hp' & Hj).
  unfold Dom.preview_in_sync in Hp'. rewrite Hj in Hp'. exact Hp'.
Qed.

Lemma page_preview_in_sync_witness :
  let evs := [Upload "data:image/png;base64,4x3";
              Upload "data:image/png;base64,AAAA"] in
  match Dom.play evs Dom.NewWorld with
  | Done w =>
      Dom.src w !! "previewImg"
      = Some (Dom.data_url (TermLib.TResize (TermLib.TDecoded 4 3) 200 150 Linear))
  | Panic _ => False
  end.
Proof.
  intros evs. destruct (Dom.play evs Dom.NewWorld) as [w|why] eqn:E.
  - apply (page_preview_in_sync evs w E).
  - vm_compute in E. discriminate.
Defined.

(** X23: the element [targetImg] is rendered by uploads and slider
    changes only.  After a session that ends with one of those it shows the
    encoding of the image the pipeline now gives; a click on Add leaves the
    page exactly as it was, so the new instance is not yet visible. *)
Theorem page_target_rendering `{Shell} (evs : list event) (ev : event)
    (w0 w : Dom.World) :
  Dom.play evs Dom.NewWorld = Done w0 ->
  Dom.dispatch w0 ev = Done w ->
  match ev with
  | AddEffect _ => Dom.src w = Dom.src w0
  | _ => exists img,
           Main.PreviewImg (Main.embedded (Dom.jsa w)) = Done img
           /\ (is_nil img = false ->
               Dom.src w !! "targetImg" = Some (Dom.data_url img))
  end.
Proof.
  intros Hplay Hd.
  destruct DomFacts.NewWorld_ok as [Hs Hp].
  destruct (DomFacts.play_invariant evs Dom.NewWorld w0 Hs Hp Hplay)
    as ([Hb _] & _ & _).
  destruct ev as [dataURL | selected | id v]; simpl in Hd.
  - unfold Dom.UploadCallback in Hd.
    set (w1 := Dom.with_jsa w0 (Main.UploadCallback (Dom.jsa w0) dataURL)) in *.
    set (w2 := Dom.UpdateImgSrcById w1 "previewImg"
                 (Main.resizedImg (Main.embedded (Dom.jsa w1)))) in *.
    destruct (Main.PreviewImg (Main.embedded (Dom.jsa w2))) as [img|] eqn:E;
      [|discriminate].
    injection Hd as <-. exists img.
    rewrite DomFacts.UpdateImgSrcById_jsa. split; [exact E|].
    intros Hnil.
    rewrite (DomFacts.UpdateImgSrcById_src w2 "targetImg" img), Hnil.
    + apply lookup_insert_eq.
    + apply DomFacts.UpdateImgSrcById_buf. exact Hb.
  - unfold Dom.AddEffectCallback in Hd. injection Hd as <-. reflexivity.
  - unfold Dom.ChangeEffectsCallback in Hd.
    set (w1 := Dom.with_jsa w0 (Main.ChangeEffectsCallback (Dom.jsa w0) id v)) in *.
    destruct (Main.PreviewImg (Main.embedded (Dom.jsa w1))) as [img|] eqn:E;
      [|discriminate].
    injection Hd as <-. exists img.
    rewrite DomFacts.UpdateImgSrcById_jsa. split; [exact E|].
    intros Hnil.
    rewrite (DomFacts.UpdateImgSrcById_src w1 "targetImg" img), Hnil.
    + apply lookup_insert_eq.
    + exact Hb.
Qed.

Lemma page_target_rendering_witness :
  let evs := [Upload "data:image/png;base64,4x3"; AddEffect "contrast"] in
  match Dom.play evs Dom.NewWorld with
  | Done w0 =>
      match Dom.dispatch w0 (AddEffect "brightness") with
      | Done w => Dom.src w = Dom.src w0
      | Panic _ => False
      end
  | Panic _ => False
  end.
Proof.
  intros evs. destruct (Dom.play evs Dom.NewWorld) as [w0|why] eqn:E.
  - destruct (Dom.dispatch w0 (AddEffect "brightness")) as [w|why] eqn:E'.
    + apply (page_target_rendering evs (AddEffect "brightness") w0 w E E').
    + discriminate.
  - vm_compute in E. discriminate.
Defined.

Lemma catalog_update_keeps_shape_witness :
  let app := catalog_session [AddEffect "contrast"; AddEffect "brightness"] in
  Catalog.Update app "contrast7" [Go.float64_of_int 1] = app.
Proof.
  intros app.
  apply (proj2 (proj2 (catalog_update_keeps_shape (H := TermLib.env) app "contrast7"
                         [Go.float64_of_int 1]))).
  intros t Hin. vm_compute in Hin.
  destruct Hin as [<- | [<- | []]]; vm_compute; discriminate.
Defined.
